(** * Probabilistic summaries: a Bloom filter and a HyperLogLog counter

    A shallow embedding of [task1/main.py] (Bloom filter, password
    uniqueness check) and [task2/main.py] (HyperLogLog, client-IP
    extraction from parsed log records), followed by the properties the
    specification states about them.

    Conventions of the embedding:
    - a Python [str] is the list of its code points;
    - a Python [int] is a [Z]; a [bytearray] is a [list Z] whose stores
      check the range [0, 256);
    - a method of a class is a computation in a state-and-exception monad
      over the record of the instance's fields, so that "does not mutate"
      is a statement about the final state and not a matter of typing;
    - a [dict] is a [gmap];
    - the libraries the code calls are modelled beside it: MurmurHash3
      ([mmh3]) and SHA-256 ([hashlib]) are written out and checked on
      published vectors, binary64 arithmetic is Rocq's primitive [float],
      while [math.log] and [ipaddress.ip_address] are parameters. *)

From Stdlib Require Import ZArith List Bool Lia String Ascii.
From Stdlib Require Import DecimalString DecimalFacts DecimalPos.
From Stdlib Require Import Floats.
From stdpp Require Import base list gmap.

Local Open Scope Z_scope.
#[local] Set Warnings "-inexact-float".

(** ** Python values, strings and exceptions *)

Abbreviation str := (list N).

Inductive exn : Set :=
| ValueError
| IndexError
| ZeroDivisionError
| AttributeError.

(** The code point sequence of an ASCII literal. *)
Definition u (s : string) : str :=
  List.map N_of_ascii (list_ascii_of_string s).

(** [Py_UNICODE_ISSPACE]: the characters [str.strip()] removes. *)
Definition is_space (c : N) : bool :=
  ((9 <=? c) && (c <=? 13) || (28 <=? c) && (c <=? 32)
   || (c =? 133) || (c =? 160) || (c =? 5760)
   || (8192 <=? c) && (c <=? 8202)
   || (c =? 8232) || (c =? 8233) || (c =? 8239) || (c =? 8287)
   || (c =? 12288))%N.

Fixpoint lstrip (s : str) : str :=
  match s with
  | c :: s' => if is_space c then lstrip s' else s
  | [] => []
  end.

Definition rstrip (s : str) : str := rev (lstrip (rev s)).

(** [s.strip()] *)
Definition strip (s : str) : str := rstrip (lstrip s).

(** [s == ""] *)
Definition is_empty (s : str) : bool :=
  match s with [] => true | _ => false end.

(** The values a caller passes where the code expects "an item" or a
    constructor argument.  The code tells [None], [str] and [int] apart
    with [is None] and [isinstance]; of an object of any other type it
    uses only the string [str()] returns, which [PObj] carries ([str()]
    of one object is taken to return the same string each time).  (A
    [bool] is an [int] for [isinstance], so it is [PInt 0] or [PInt 1] as
    a constructor argument; as an item its string form is not a
    numeral, and it is the [PObj] of that string.) *)
Inductive pyval : Type :=
| PNone
| PStr (s : str)
| PInt (n : Z)
| PObj (s : str).

(** [str(n)] for an [int]: the decimal numeral, with a minus sign. *)
Definition str_of_int (n : Z) : str :=
  u (NilZero.string_of_int (Z.to_int n)).

(** ** State and exceptions *)

Definition M (St A : Type) : Type := St -> exn + (A * St).

Definition ret {St A} (a : A) : M St A := fun s => inr (a, s).

Definition raise {St A} (e : exn) : M St A := fun _ => inl e.

Definition bind {St A B} (c : M St A) (k : A -> M St B) : M St B :=
  fun s => match c s with
           | inl e => inl e
           | inr (a, s') => k a s'
           end.

Definition gets {St A} (f : St -> A) : M St A := fun s => inr (f s, s).

Definition modify {St} (f : St -> St) : M St unit := fun s => inr (tt, f s).

Definition lift {St A} (r : exn + A) : M St A :=
  fun s => match r with inl e => inl e | inr a => inr (a, s) end.

Notation "x <~ c ;; k" := (bind c (fun x => k))
  (at level 100, c at next level, right associativity).
Notation "c ;;; k" := (bind c (fun _ => k))
  (at level 100, right associativity).

(** [for x in xs: body(x)] *)
Fixpoint for_ {St A} (xs : list A) (body : A -> M St unit) : M St unit :=
  match xs with
  | [] => ret tt
  | x :: xs' => body x ;;; for_ xs' body
  end.

(** [for x in xs: body(x)] where the body may [return r] from the
    enclosing function ([Some r]) or fall through ([None]). *)
Fixpoint for_return {St A R} (xs : list A) (body : A -> M St (option R))
  : M St (option R) :=
  match xs with
  | [] => ret None
  | x :: xs' =>
      r <~ body x ;;
      match r with
      | Some v => ret (Some v)
      | None => for_return xs' body
      end
  end.

(** [range(n)] *)
Definition range (n : Z) : list Z := seqZ 0 n.

(** ** Integers and byte arrays as Python has them *)

(** [a % b]: the sign follows the divisor, as for [Z.modulo]; a zero
    divisor raises. *)
Definition py_mod (a b : Z) : exn + Z :=
  if b =? 0 then inl ZeroDivisionError else inr (a mod b).

(** [a >> n] and [a << n]: a negative count raises. *)
Definition py_shiftr (a n : Z) : exn + Z :=
  if n <? 0 then inl ValueError else inr (Z.shiftr a n).

Definition py_shiftl (a n : Z) : exn + Z :=
  if n <? 0 then inl ValueError else inr (Z.shiftl a n).

(** Sequence subscripts: [-len <= i < 0] counts from the end. *)
Definition py_index (len i : Z) : option nat :=
  if (0 <=? i) && (i <? len) then Some (Z.to_nat i)
  else if (- len <=? i) && (i <? 0) then Some (Z.to_nat (len + i))
  else None.

(** [bytearray(n)] *)
Definition bytearray (n : Z) : exn + list Z :=
  if n <? 0 then inl ValueError else inr (replicate (Z.to_nat n) 0).

(** [b[i]] *)
Definition bytearray_get (b : list Z) (i : Z) : exn + Z :=
  match py_index (Z.of_nat (length b)) i with
  | Some k =>
      match b !! k with
      | Some v => inr v
      | None => inl IndexError
      end
  | None => inl IndexError
  end.

(** [b[i] = v] *)
Definition bytearray_set (b : list Z) (i v : Z) : exn + list Z :=
  match py_index (Z.of_nat (length b)) i with
  | Some k =>
      if (0 <=? v) && (v <? 256) then inr (<[k := v]> b)
      else inl ValueError
  | None => inl IndexError
  end.

(** [x.bit_length()] *)
Definition bit_length (x : Z) : Z :=
  if x =? 0 then 0 else Z.log2 (Z.abs x) + 1.

(** ** Library models: UTF-8 and MurmurHash3 *)

(** [s.encode("utf-8")], one code point.  Strings are taken to hold
    Unicode scalar values, for which encoding cannot fail; the same bit
    pattern is used for any other number. *)
Definition utf8_char (c : Z) : list Z :=
  if c <? 128 then [c]
  else if c <? 2048 then [192 + c / 64; 128 + c mod 64]
  else if c <? 65536 then
    [224 + c / 4096; 128 + (c / 64) mod 64; 128 + c mod 64]
  else
    [240 + (c / 262144) mod 8; 128 + (c / 4096) mod 64;
     128 + (c / 64) mod 64; 128 + c mod 64].

Definition utf8_encode (s : str) : list Z :=
  flat_map (fun c => utf8_char (Z.of_N c)) s.

(** [mmh3.hash(key, seed, signed=False)]: MurmurHash3, x86 32-bit
    variant, on the UTF-8 bytes of the key, the seed taken as an unsigned
    32-bit number.  The result is in [[0, 2^32)]. *)
Module Mmh3.

Definition w32 (x : Z) : Z := x mod 2 ^ 32.

Definition rotl32 (x r : Z) : Z :=
  w32 (Z.lor (Z.shiftl x r) (Z.shiftr x (32 - r))).

Definition c1 : Z := 3432918353.  (* 0xcc9e2d51 *)
Definition c2 : Z := 461845907.   (* 0x1b873593 *)

Definition mix_k (k : Z) : Z := w32 (rotl32 (w32 (k * c1)) 15 * c2).

Definition mix_h (h k : Z) : Z :=
  w32 (rotl32 (Z.lxor h (mix_k k)) 13 * 5 + 3864292196). (* 0xe6546b64 *)

Fixpoint le_bytes (bs : list Z) : Z :=
  match bs with
  | [] => 0
  | b :: bs' => b + 256 * le_bytes bs'
  end.

(** The 4-byte blocks, then the tail of 0 to 3 bytes. *)
Fixpoint blocks (data : list Z) (h : Z) : Z :=
  match data with
  | b0 :: b1 :: b2 :: b3 :: rest => blocks rest (mix_h h (le_bytes [b0; b1; b2; b3]))
  | tail => Z.lxor h (mix_k (le_bytes tail))
  end.

Definition fmix32 (h : Z) : Z :=
  let h := Z.lxor h (Z.shiftr h 16) in
  let h := w32 (h * 2246822507) in   (* 0x85ebca6b *)
  let h := Z.lxor h (Z.shiftr h 13) in
  let h := w32 (h * 3266489909) in   (* 0xc2b2ae35 *)
  Z.lxor h (Z.shiftr h 16).

Definition murmur3_32 (data : list Z) (seed : Z) : Z :=
  fmix32 (Z.lxor (blocks data (w32 seed)) (w32 (Z.of_nat (length data)))).

Definition hash (key : str) (seed : Z) : Z :=
  murmur3_32 (utf8_encode key) seed.

End Mmh3.

(** ** task1: the Bloom filter *)

Module BloomFilter.

Record t : Type := mk { size : Z; num_hashes : Z; _bits : list Z }.

Definition set_bits (b : list Z) (self : t) : t :=
  mk (size self) (num_hashes self) b.

(** [BloomFilter(size, num_hashes)] *)
Definition __init__ (size num_hashes : pyval) : exn + t :=
  match size with
  | PInt sz =>
      if sz <=? 0 then inl ValueError
      else
        match num_hashes with
        | PInt k =>
            if k <=? 0 then inl ValueError
            else
              match bytearray ((sz + 7) / 8) with
              | inl e => inl e
              | inr b => inr (mk sz k b)
              end
        | _ => inl ValueError
        end
  | _ => inl ValueError
  end.

Definition _set_bit (idx : Z) : M t unit :=
  b <~ gets _bits ;;
  old <~ lift (bytearray_get b (Z.shiftr idx 3)) ;;
  new <~ lift (bytearray_set b (Z.shiftr idx 3)
                 (Z.lor old (Z.shiftl 1 (Z.land idx 7)))) ;;
  modify (set_bits new).

Definition _get_bit (idx : Z) : M t Z :=
  b <~ gets _bits ;;
  v <~ lift (bytearray_get b (Z.shiftr idx 3)) ;;
  ret (Z.land (Z.shiftr v (Z.land idx 7)) 1).

Definition _normalize (item : pyval) : str :=
  match item with
  | PNone => []
  | PStr s => s
  | PInt n => str_of_int n
  | PObj s => s
  end.

Definition add (item : pyval) : M t bool :=
  let s := _normalize item in
  if is_empty (strip s) then ret false
  else
    k <~ gets num_hashes ;;
    for_ (range k) (fun i =>
      sz <~ gets size ;;
      idx <~ lift (py_mod (Mmh3.hash s i) sz) ;;
      _set_bit idx) ;;;
    ret true.

Definition contains (item : pyval) : M t bool :=
  let s := _normalize item in
  if is_empty (strip s) then ret false
  else
    k <~ gets num_hashes ;;
    r <~ for_return (range k) (fun i =>
      sz <~ gets size ;;
      idx <~ lift (py_mod (Mmh3.hash s i) sz) ;;
      bit <~ _get_bit idx ;;
      if bit =? 0 then ret (Some false) else ret None) ;;
    match r with
    | Some v => ret v
    | None => ret true
    end.

End BloomFilter.

(** The three status strings of [check_password_uniqueness], as code
    points: "already used", "unique", "invalid (empty/None)". *)
Definition status_used : str :=
  [1074; 1078; 1077; 32; 1074; 1080; 1082; 1086; 1088; 1080; 1089; 1090;
   1072; 1085; 1080; 1081]%N.

Definition status_unique : str :=
  [1091; 1085; 1110; 1082; 1072; 1083; 1100; 1085; 1080; 1081]%N.

Definition status_invalid : str :=
  [1085; 1077; 1082; 1086; 1088; 1077; 1082; 1090; 1085; 1080; 1081; 32;
   40; 1087; 1086; 1088; 1086; 1078; 1085; 1110; 1081; 47; 78; 111; 110;
   101; 41]%N.

(** The dictionary key of one candidate. *)
Definition result_key (p : pyval) : str :=
  match p with
  | PNone => u "None"
  | PStr s => s
  | PInt n => str_of_int n
  | PObj s => s
  end.

(** [p is None or (isinstance(p, str) and p.strip() == "")] *)
Definition rejected (p : pyval) : bool :=
  match p with
  | PNone => true
  | PStr s => is_empty (strip s)
  | PInt _ => false
  | PObj _ => false
  end.

(** The body of the loop of [check_password_uniqueness], for one
    candidate [p]; [results] is the dictionary built so far. *)
Definition check_one (results : gmap str str) (p : pyval)
  : M BloomFilter.t (gmap str str) :=
  let key := result_key p in
  if rejected p then ret (<[key := status_invalid]> results)
  else
    seen <~ BloomFilter.contains p ;;
    if seen then ret (<[key := status_used]> results)
    else
      BloomFilter.add p ;;;
      ret (<[key := status_unique]> results).

Fixpoint check_loop (results : gmap str str) (ps : list pyval)
  : M BloomFilter.t (gmap str str) :=
  match ps with
  | [] => ret results
  | p :: ps' =>
      results' <~ check_one results p ;;
      check_loop results' ps'
  end.

Definition check_password_uniqueness (new_passwords : list pyval)
  : M BloomFilter.t (gmap str str) :=
  check_loop ∅ new_passwords.

(** ** Library model: SHA-256 *)

(** [hashlib.sha256(data).digest()] on a byte string (FIPS 180-4). *)
Module Sha256.

Definition w32 (x : Z) : Z := x mod 2 ^ 32.

Definition rotr (x n : Z) : Z :=
  w32 (Z.lor (Z.shiftr x n) (Z.shiftl x (32 - n))).

Definition K : list Z :=
 [
  1116352408; 1899447441; 3049323471; 3921009573; 961987163;
   1508970993; 2453635748; 2870763221; 3624381080; 310598401;
   607225278; 1426881987; 1925078388; 2162078206; 2614888103;
   3248222580; 3835390401; 4022224774; 264347078; 604807628; 770255983;
   1249150122; 1555081692; 1996064986; 2554220882; 2821834349;
   2952996808; 3210313671; 3336571891; 3584528711; 113926993;
   338241895; 666307205; 773529912; 1294757372; 1396182291; 1695183700;
   1986661051; 2177026350; 2456956037; 2730485921; 2820302411;
   3259730800; 3345764771; 3516065817; 3600352804; 4094571909;
   275423344; 430227734; 506948616; 659060556; 883997877; 958139571;
   1322822218; 1537002063; 1747873779; 1955562222; 2024104815;
   2227730452; 2361852424; 2428436474; 2756734187; 3204031479;
   3329325298
 ].

Definition H0 : list Z :=
 [
  1779033703; 3144134277; 1013904242; 2773480762; 1359893119;
   2600822924; 528734635; 1541459225
 ].

Definition ch (x y z : Z) : Z :=
  Z.lxor (Z.land x y) (Z.land (Z.lxor x 4294967295) z).
Definition maj (x y z : Z) : Z :=
  Z.lxor (Z.lxor (Z.land x y) (Z.land x z)) (Z.land y z).
Definition bsig0 (x : Z) : Z := Z.lxor (Z.lxor (rotr x 2) (rotr x 13)) (rotr x 22).
Definition bsig1 (x : Z) : Z := Z.lxor (Z.lxor (rotr x 6) (rotr x 11)) (rotr x 25).
Definition ssig0 (x : Z) : Z := Z.lxor (Z.lxor (rotr x 7) (rotr x 18)) (Z.shiftr x 3).
Definition ssig1 (x : Z) : Z := Z.lxor (Z.lxor (rotr x 17) (rotr x 19)) (Z.shiftr x 10).

(** Big-endian bytes of a word, and back. *)
Definition be_bytes4 (w : Z) : list Z :=
  [(w / 16777216) mod 256; (w / 65536) mod 256; (w / 256) mod 256; w mod 256].

Fixpoint be_words (bs : list Z) : list Z :=
  match bs with
  | b0 :: b1 :: b2 :: b3 :: rest =>
      (((b0 * 256 + b1) * 256 + b2) * 256 + b3) :: be_words rest
  | _ => []
  end.

(** Padding: a one bit, zeros up to 56 modulo 64, the bit length on
    eight bytes. *)
Definition pad (msg : list Z) : list Z :=
  let len := Z.of_nat (length msg) in
  msg ++ [128] ++ replicate (Z.to_nat ((55 - len) mod 64)) 0
      ++ be_bytes4 ((8 * len) / 4294967296) ++ be_bytes4 (8 * len).

(** The message schedule, newest word first. *)
Fixpoint extend (n : nat) (rw : list Z) : list Z :=
  match n with
  | O => rw
  | S n' =>
      extend n'
        (w32 (ssig1 (nth 1 rw 0) + nth 6 rw 0 + ssig0 (nth 14 rw 0)
              + nth 15 rw 0) :: rw)
  end.

Definition schedule (block : list Z) : list Z :=
  rev (extend 48 (rev block)).

Definition round (st : list Z) (kw : Z * Z) : list Z :=
  match st with
  | [a; b; c; d; e; f; g; h] =>
      let t1 := h + bsig1 e + ch e f g + fst kw + snd kw in
      let t2 := bsig0 a + maj a b c in
      [w32 (t1 + t2); a; b; c; w32 (d + t1); e; f; g]
  | _ => st
  end.

Definition compress (hs : list Z) (block : list Z) : list Z :=
  let st := fold_left round (combine K (schedule block)) hs in
  List.map (fun '(x, y) => w32 (x + y)) (combine hs st).

Fixpoint process (n : nat) (ws : list Z) (hs : list Z) : list Z :=
  match n with
  | O => hs
  | S n' =>
      match ws with
      | [] => hs
      | _ => process n' (skipn 16 ws) (compress hs (firstn 16 ws))
      end
  end.

Definition digest (msg : list Z) : list Z :=
  let ws := be_words (pad msg) in
  flat_map be_bytes4 (process (length ws) ws H0).

End Sha256.

(** [s.encode("utf-8", errors="replace")]: a lone surrogate becomes
    a question mark. *)
Definition utf8_encode_replace (s : str) : list Z :=
  flat_map (fun c => let c := Z.of_N c in
                     if (55296 <=? c) && (c <=? 57343) then [63]
                     else utf8_char c) s.

(** [int.from_bytes(bs, "big", signed=False)] *)
Definition int_from_bytes_big (bs : list Z) : Z :=
  fold_left (fun acc b => acc * 256 + b) bs 0.

(** ** Floating point as Python has it (IEEE 754 binary64) *)

(** [float(n)] for an [int]; exact for [|n| < 2^53], which covers every
    integer the code converts ([m], [m ** 2] and [zeros], all at most
    [2^36] for the precisions the constructor accepts). *)
Definition float_of_int (n : Z) : float :=
  if n <? 0 then (- of_uint63 (Uint63.of_Z (- n)))%float
  else of_uint63 (Uint63.of_Z n).

(** [2.0 ** (-r)] for an [int] [r]: an exact power of two. *)
Definition pow2_neg (r : Z) : float := Z.ldexp 1%float (- r).

(** [x / y] on floats: a zero divisor raises. *)
Definition float_div (x y : float) : exn + float :=
  if (y =? 0)%float then inl ZeroDivisionError else inr (x / y)%float.

(** [a / b] on ints (true division), correctly rounded; for operands
    below [2^53] that is the quotient of the two conversions. *)
Definition int_truediv (a b : Z) : exn + float :=
  if b =? 0 then inl ZeroDivisionError
  else inr (float_of_int a / float_of_int b)%float.

Definition two_pow_64 : float := Eval vm_compute in Z.ldexp 1%float 64.

(** ** task2: HyperLogLog *)

Module HyperLogLog.

Record t : Type :=
  mk { p : Z; m : Z; registers : list Z; alpha : float }.

Definition set_registers (r : list Z) (self : t) : t :=
  mk (p self) (m self) r (alpha self).

(** [HyperLogLog(p)] *)
Definition __init__ (p : pyval) : exn + t :=
  match p with
  | PInt p =>
      if (p <? 4) || (p >? 18) then inl ValueError
      else
        let m := Z.shiftl 1 p in
        match bytearray m with
        | inl e => inl e
        | inr regs =>
            let alpha :=
              if m =? 16 then 0.673%float
              else if m =? 32 then 0.697%float
              else if m =? 64 then 0.709%float
              else (0.7213 / (1.0 + 1.079 / float_of_int m))%float in
            inr (mk p m regs alpha)
        end
  | _ => inl ValueError
  end.

(** [int.from_bytes(sha256(s.encode("utf-8", errors="replace")).digest()[:8], "big")] *)
Definition _hash64 (s : str) : Z :=
  int_from_bytes_big (firstn 8 (Sha256.digest (utf8_encode_replace s))).

Definition _clz64 (x : Z) : Z := 64 - bit_length x.

Definition add (item : str) : M t unit :=
  let x := _hash64 item in
  pj <~ gets p ;;
  j <~ lift (py_shiftr x (64 - pj)) ;;
  pw <~ gets p ;;
  xw <~ lift (py_shiftl x pw) ;;
  let w := Z.land xw (Z.shiftl 1 64 - 1) in
  rho <~ (if w =? 0
          then (pr <~ gets p ;; ret (64 - pr + 1))
          else ret (_clz64 w + 1)) ;;
  regs <~ gets registers ;;
  old <~ lift (bytearray_get regs j) ;;
  if rho >? old then
    new <~ lift (bytearray_set regs j rho) ;;
    modify (set_registers new)
  else ret tt.

Section Count.

(** The C library's natural logarithm on positive arguments. *)
Variable libm_log : float -> float.

(** [math.log(x)]: zero and negative arguments raise. *)
Definition math_log (x : float) : exn + float :=
  if (x <=? 0)%float then inl ValueError else inr (libm_log x).

(** One turn of the loop of [count]: [(inv_sum, zeros)]. *)
Definition count_step (acc : float * Z) (r : Z) : float * Z :=
  let inv_sum := (fst acc + pow2_neg r)%float in
  if r =? 0 then (inv_sum, snd acc + 1) else (inv_sum, snd acc).

Definition count : M t float :=
  regs <~ gets registers ;;
  let acc := fold_left count_step regs (0%float, 0) in
  let inv_sum := fst acc in
  let zeros := snd acc in
  a <~ gets alpha ;;
  m1 <~ gets m ;;
  e <~ lift (float_div (a * float_of_int (m1 ^ 2)) inv_sum) ;;
  m2 <~ gets m ;;
  e <~ (if (e <=? 2.5 * float_of_int m2)%float && (zeros >? 0)
        then
          m3 <~ gets m ;;
          m4 <~ gets m ;;
          q <~ lift (int_truediv m4 zeros) ;;
          l <~ lift (math_log q) ;;
          ret (float_of_int m3 * l)%float
        else ret e) ;;
  e <~ (if ((1.0 / 30.0) * two_pow_64 <? e)%float
        then
          l <~ lift (math_log (1.0 - e / two_pow_64)) ;;
          ret (- two_pow_64 * l)%float
        else ret e) ;;
  ret e.

End Count.

End HyperLogLog.

(** [hll_unique_count_stream], on the sequence of addresses that
    [iter_ips_from_log] yields. *)
Definition hll_unique_count_stream (libm_log : float -> float)
    (ips : list str) (p : pyval) : exn + float :=
  match HyperLogLog.__init__ p with
  | inl e => inl e
  | inr hll =>
      match (for_ ips HyperLogLog.add ;;; HyperLogLog.count libm_log) hll with
      | inl e => inl e
      | inr (v, _) => inr v
      end
  end.

(** ** task2: client addresses from parsed log records *)

(** A value of a flat JSON record; the code only tells strings from
    everything else. *)
Inductive jvalue : Type :=
| JNull
| JBool (b : bool)
| JNum (n : Z)
| JStr (s : str).

(** A line of the log file, by what the loop of [iter_ips_from_log]
    does with it: the line strips to nothing; [json.loads] raises
    [json.JSONDecodeError] on it; [json.loads] returns an object (a
    [dict]); or [json.loads] returns a value of another kind ([null], a
    number, a string, a list), which has no method [get].  The decoder
    itself, and its limits on depth and on the digits of a number, are
    not modelled. *)
Inductive log_line : Type :=
| LineBlank
| LineMalformed
| LineObject (obj : gmap str jvalue)
| LineOther.

(** The records that the loop gets through: the objects on the lines
    before the first one that decodes to something else. *)
Fixpoint records_read (lines : list log_line) : list (gmap str jvalue) :=
  match lines with
  | [] => []
  | LineOther :: _ => []
  | LineObject obj :: rest => obj :: records_read rest
  | _ :: rest => records_read rest
  end.

(** [s.split(",")[0]]: what precedes the first separator. *)
Fixpoint split_first (sep : N) (s : str) : str :=
  match s with
  | [] => []
  | c :: s' => if (c =? sep)%N then [] else c :: split_first sep s'
  end.

Definition comma : N := 44.

Definition http_x_forwarded_for : str := u "http_x_forwarded_for".
Definition remote_addr : str := u "remote_addr".

(** [obj.get(key, "")] *)
Definition get_or_empty (obj : gmap str jvalue) (key : str) : jvalue :=
  match obj !! key with
  | Some v => v
  | None => JStr []
  end.

(** Truth value of an [Optional[str]]: [None] and [""] are false. *)
Definition truthy (o : option str) : bool :=
  match o with
  | Some s => negb (is_empty s)
  | None => false
  end.

Section Ipaddress.

(** [ip_address s] is [true] when [ipaddress.ip_address(s)] returns,
    [false] when it raises [ValueError]. *)
Variable ip_address : str -> bool.

Definition _validate_ip (s : str) : option str :=
  let s := strip s in
  if is_empty s then None
  else if ip_address s then Some s
  else None.

(** The first [if] of [_extract_client_ip]: [Some ip] when it returns. *)
Definition from_forwarded (xff : jvalue) : option str :=
  match xff with
  | JStr x =>
      if negb (is_empty (strip x)) then
        let first := strip (split_first comma x) in
        let ip := _validate_ip first in
        if truthy ip then ip else None
      else None
  | _ => None
  end.

(** The second [if]. *)
Definition from_remote (ra : jvalue) : option str :=
  match ra with
  | JStr r =>
      if negb (is_empty (strip r)) then
        let ip := _validate_ip r in
        if truthy ip then ip else None
      else None
  | _ => None
  end.

Definition _extract_client_ip (obj : gmap str jvalue) : option str :=
  match from_forwarded (get_or_empty obj http_x_forwarded_for) with
  | Some ip => Some ip
  | None =>
      match from_remote (get_or_empty obj remote_addr) with
      | Some ip => Some ip
      | None => None
      end
  end.

(** The loop of [iter_ips_from_log] over a run of lines each of which
    decodes to an object, given as the records they decode to; the loop
    over lines of every kind is [iter_ips_from_lines] below. *)
Fixpoint iter_ips_from_log (records : list (gmap str jvalue)) : list str :=
  match records with
  | [] => []
  | obj :: rest =>
      let ip := _extract_client_ip obj in
      match ip with
      | Some s => if truthy ip then s :: iter_ips_from_log rest
                  else iter_ips_from_log rest
      | None => iter_ips_from_log rest
      end
  end.

(** The loop of [iter_ips_from_log] over the lines of the file: the
    addresses it yields, and the exception that ends the stream, if one
    does.  A blank line and a line that does not decode are skipped
    ([continue]); on a line that decodes to a value that is not an
    object, [obj.get] in [_extract_client_ip] raises [AttributeError],
    which nothing catches: the addresses yielded so far have been
    delivered, and no later line is read. *)
Fixpoint iter_ips_from_lines (lines : list log_line)
  : list str * option exn :=
  match lines with
  | [] => ([], None)
  | LineBlank :: rest => iter_ips_from_lines rest
  | LineMalformed :: rest => iter_ips_from_lines rest
  | LineOther :: _ => ([], Some AttributeError)
  | LineObject obj :: rest =>
      let ip := _extract_client_ip obj in
      let later := iter_ips_from_lines rest in
      match ip with
      | Some s => if truthy ip then (s :: later.1, later.2) else later
      | None => later
      end
  end.

End Ipaddress.

(** ** Notions the properties are stated with *)

(** *** Bloom filter *)

(** Bit position [i] of a packed bit array is set. *)
Definition is_set (bits : list Z) (i : Z) : bool :=
  match bits !! Z.to_nat (Z.shiftr i 3) with
  | Some v => Z.testbit v (Z.land i 7)
  | None => false
  end.

(** What the constructor establishes and every method keeps. *)
Record bloom_wf (bf : BloomFilter.t) : Prop := {
  wf_size : 0 < BloomFilter.size bf;
  wf_num_hashes : 0 < BloomFilter.num_hashes bf;
  wf_length :
    Z.of_nat (length (BloomFilter._bits bf)) = (BloomFilter.size bf + 7) / 8;
  wf_bytes : Forall (fun b => 0 <= b < 256) (BloomFilter._bits bf)
}.

(** The normalized string form of an item is empty or whitespace-only. *)
Definition blank (item : pyval) : Prop :=
  strip (BloomFilter._normalize item) = [].

(** Every probe position of the string [s] is set in [bf]. *)
Definition all_probes_set (bf : BloomFilter.t) (s : str) : Prop :=
  forall i, 0 <= i < BloomFilter.num_hashes bf ->
    is_set (BloomFilter._bits bf)
           (Mmh3.hash s i mod BloomFilter.size bf) = true.

(** A call on a filter, and a sequence of calls. *)
Inductive call : Type :=
| CallAdd (item : pyval)
| CallContains (item : pyval).

Definition do_call (c : call) : M BloomFilter.t bool :=
  match c with
  | CallAdd item => BloomFilter.add item
  | CallContains item => BloomFilter.contains item
  end.

Fixpoint do_calls (cs : list call) : M BloomFilter.t (list bool) :=
  match cs with
  | [] => ret []
  | c :: cs' =>
      r <~ do_call c ;;
      rs <~ do_calls cs' ;;
      ret (r :: rs)
  end.

(** How the loop classifies one candidate on the filter [bf], and the
    filter it leaves: invalid when the test of the loop rejects it,
    otherwise by what [contains] answers; a unique candidate is passed to
    [add], whose result the loop does not look at. *)
Inductive classified (bf : BloomFilter.t) (p : pyval)
  : str -> BloomFilter.t -> Prop :=
| classified_invalid :
    rejected p = true ->
    classified bf p status_invalid bf
| classified_duplicate :
    rejected p = false ->
    BloomFilter.contains p bf = inr (true, bf) ->
    classified bf p status_used bf
| classified_unique r bf' :
    rejected p = false ->
    BloomFilter.contains p bf = inr (false, bf) ->
    BloomFilter.add p bf = inr (r, bf') ->
    classified bf p status_unique bf'.

(** The candidates classified one after the other, each on the filter
    its predecessor left. *)
Inductive batch_classified
  : BloomFilter.t -> list pyval -> list str -> BloomFilter.t -> Prop :=
| batch_nil bf : batch_classified bf [] [] bf
| batch_cons bf p l bf1 ps ls bf2 :
    classified bf p l bf1 ->
    batch_classified bf1 ps ls bf2 ->
    batch_classified bf (p :: ps) (l :: ls) bf2.

(** The dictionary after the assignments [results[key] = label], in order. *)
Definition record_all (results : gmap str str) (kls : list (str * str))
  : gmap str str :=
  fold_left (fun r kl => <[kl.1 := kl.2]> r) kls results.

(** *** HyperLogLog *)

Record hll_wf (h : HyperLogLog.t) : Prop := {
  wf_p : 4 <= HyperLogLog.p h <= 18;
  wf_m : HyperLogLog.m h = 2 ^ HyperLogLog.p h;
  wf_registers :
    Z.of_nat (length (HyperLogLog.registers h)) = HyperLogLog.m h
}.

(** The number of leading zero bits of [w] seen as a [width]-bit value,
    counted from the top bit down. *)
Fixpoint leading_zeros (width : nat) (w : Z) : Z :=
  match width with
  | O => 0
  | S n => if Z.testbit w (Z.of_nat n) then 0 else 1 + leading_zeros n w
  end.

Section EstimateFormula.

Variable libm_log : float -> float.

(** The sum over all registers of [2^(-register)]. *)
Definition inverse_power_sum (regs : list Z) : float :=
  fold_left (fun acc r => (acc + pow2_neg r)%float) regs 0%float.

Definition zero_register_count (regs : list Z) : Z :=
  Z.of_nat (length (filter (fun r => r = 0) regs)).

(** The estimate as the specification words it: the raw estimate, then
    the small-range and the large-range replacements. *)
Definition estimate (h : HyperLogLog.t) : exn + float :=
  let m := HyperLogLog.m h in
  let regs := HyperLogLog.registers h in
  match float_div (HyperLogLog.alpha h * float_of_int (m ^ 2))
                  (inverse_power_sum regs) with
  | inl e => inl e
  | inr raw =>
      let small :=
        if (raw <=? 2.5 * float_of_int m)%float
           && existsb (fun r => r =? 0) regs
        then
          match int_truediv m (zero_register_count regs) with
          | inl e => inl e
          | inr q =>
              match HyperLogLog.math_log libm_log q with
              | inl e => inl e
              | inr l => inr (float_of_int m * l)%float
              end
          end
        else inr raw in
      match small with
      | inl e => inl e
      | inr e1 =>
          if (two_pow_64 / 30.0 <? e1)%float
          then
            match HyperLogLog.math_log libm_log
                    (1.0 - e1 / two_pow_64)%float with
            | inl e => inl e
            | inr l => inr (- two_pow_64 * l)%float
            end
          else inr e1
      end
  end.

End EstimateFormula.

(** *** Client address extraction *)

Section ExtractionRule.

Variable ip_address : str -> bool.

(** The remote-address rule. *)
Definition remote_rule (obj : gmap str jvalue) : option str :=
  match obj !! remote_addr with
  | Some (JStr r) =>
      if ip_address (strip r) then Some (strip r) else None
  | _ => None
  end.

(** The rule in priority order: forwarded-for, then remote address,
    then nothing. *)
Definition extraction_rule (obj : gmap str jvalue) : option str :=
  match obj !! http_x_forwarded_for with
  | Some (JStr x) =>
      let token := strip (split_first comma x) in
      if negb (is_empty x) && ip_address token then Some token
      else remote_rule obj
  | _ => remote_rule obj
  end.

End ExtractionRule.

(** ** Instances used in the examples *)

(** A natural logarithm by argument reduction and the series of
    [2 * atanh ((x - 1) / (x + 1))]; exact at [1]. *)
Definition ln2 : float := 0x1.62e42fefa39efp-1%float.

Fixpoint atanh_series (n : nat) (z2 : float) (k : Z) (term acc : float)
  : float :=
  match n with
  | O => acc
  | S n' =>
      atanh_series n' z2 (k + 2) (term * z2)%float
                   (acc + term / float_of_int k)%float
  end.

Definition log_series (x : float) : float :=
  let '(fr, e) := Z.frexp x in
  let '(fr, e) := if (fr <? 0.75)%float then ((fr * 2)%float, e - 1)
                  else (fr, e) in
  let z := ((fr - 1) / (fr + 1))%float in
  (float_of_int e * ln2 + 2 * atanh_series 30 (z * z)%float 1 z 0)%float.

(** Dotted-quad IPv4 syntax: four decimal fields of one to three digits,
    each at most 255, without leading zeros. *)
Fixpoint decimal_value (acc : Z) (s : str) : option Z :=
  match s with
  | [] => Some acc
  | c :: s' =>
      if ((48 <=? c) && (c <=? 57))%N
      then decimal_value (10 * acc + (Z.of_N c - 48)) s'
      else None
  end.

Definition octet (s : str) : bool :=
  match s with
  | [] => false
  | c :: s' =>
      (length s <=? 3)%nat
      && (negb (c =? 48)%N || is_empty s')
      && match decimal_value 0 s with
         | Some v => v <=? 255
         | None => false
         end
  end.

Fixpoint fields (n : nat) (sep : N) (s : str) : list str :=
  match n with
  | O => [s]
  | S n' =>
      if existsb (N.eqb sep) s
      then split_first sep s
             :: fields n' sep (drop (S (length (split_first sep s))) s)
      else [s]
  end.

Definition dotted_quad (s : str) : bool :=
  let fs := fields (length s) 46%N s in
  (length fs =? 4)%nat && forallb octet fs.

(** ** task2: exact counting *)

(** [exact_unique_count_stream], on the sequence of addresses that
    [iter_ips_from_log] yields: the size of the set of those seen. *)
Definition exact_unique_count_stream (ips : list str) : Z :=
  Z.of_nat (size (foldl (fun (seen : gset str) ip => {[ip]} ∪ seen) ∅ ips)).

(** *** Further notions *)

(** Bit position [i] is a probe position of the string [s] in [bf]. *)
Definition probe (bf : BloomFilter.t) (s : str) (i : Z) : Prop :=
  exists seed, 0 <= seed < BloomFilter.num_hashes bf
               /\ i = Mmh3.hash s seed mod BloomFilter.size bf.

(** Bit position [i] is a probe position of an item that one of the
    calls [cs] adds. *)
Definition added_probe (bf : BloomFilter.t) (cs : list call) (i : Z) : Prop :=
  exists item, CallAdd item ∈ cs /\ ~ blank item
               /\ probe bf (BloomFilter._normalize item) i.

(** The label a candidate gets once every candidate has been through
    the loop: a candidate that the loop does not reject but whose string
    is blank is never in the filter. *)
Definition seen_label (p : pyval) : str :=
  if rejected p then status_invalid
  else if is_empty (strip (BloomFilter._normalize p)) then status_unique
  else status_used.

(** The bucket and the rank of an item for a counter of precision [p]. *)
Definition bucket (p : Z) (item : str) : nat :=
  Z.to_nat (Z.shiftr (HyperLogLog._hash64 item) (64 - p)).

Definition rank (p : Z) (item : str) : Z :=
  1 + leading_zeros (Z.to_nat (64 - p))
        (HyperLogLog._hash64 item mod 2 ^ (64 - p)).

(** The counter after one item. *)
Definition absorb (h : HyperLogLog.t) (item : str) : HyperLogLog.t :=
  let j := bucket (HyperLogLog.p h) item in
  HyperLogLog.set_registers
    (<[j := Z.max (default 0 (HyperLogLog.registers h !! j))
                  (rank (HyperLogLog.p h) item)]> (HyperLogLog.registers h))
    h.

(** *** Auxiliary notions of the proofs *)

(** A string that does not start with whitespace. *)
Definition clean_head (s : str) : Prop :=
  match s with
  | [] => True
  | c :: _ => is_space c = false
  end.

(** The characters of a decimal numeral. *)
Definition numeral_char (c : N) : bool :=
  ((48 <=? c) && (c <=? 57) || (c =? 45))%N.

(** The filter kept its parameters; no bit was cleared. *)
Definition same_shape (bf bf' : BloomFilter.t) : Prop :=
  BloomFilter.size bf' = BloomFilter.size bf
  /\ BloomFilter.num_hashes bf' = BloomFilter.num_hashes bf.

Definition bits_kept (bf bf' : BloomFilter.t) : Prop :=
  forall i, is_set (BloomFilter._bits bf) i = true ->
            is_set (BloomFilter._bits bf') i = true.

Definition is_byte (b : Z) : Prop := 0 <= b < 256.

(** Unfolding of the monad's operations. *)
Ltac monad_unfold :=
  unfold bind, gets, lift, ret, modify, raise in *.

(** * Properties *)

(** ** The library models on published test vectors *)

Example murmur3_vectors :
  Mmh3.hash (u "") 0 = 0
  /\ Mmh3.hash (u "") 1 = 1364076727            (* 0x514e28b7 *)
  /\ Mmh3.hash (u "test") 0 = 3127628307        (* 0xba6bd213 *)
  /\ Mmh3.hash (u "Hello, world!") 0 = 3224780355   (* 0xc0363e43 *)
  /\ Mmh3.hash (u "The quick brown fox jumps over the lazy dog") 2538058380
     = 799549133.                               (* 0x2fa826cd *)
Proof. vm_compute. repeat split. Qed.

Example sha256_vectors :
  HyperLogLog._hash64 (u "") = 16406829232824261652      (* e3b0c44298fc1c14 *)
  /\ HyperLogLog._hash64 (u "abc") = 13436514500253700074. (* ba7816bf8f01cfea *)
Proof. vm_compute. repeat split. Qed.

(** ** Strings *)

Lemma lstrip_clean_head s : clean_head (lstrip s).
Proof.
  induction s as [|c s IH]; simpl; [exact I|].
  destruct (is_space c) eqn:E; [exact IH | exact E].
Qed.

Lemma lstrip_id s : clean_head s -> lstrip s = s.
Proof. destruct s as [|c s]; simpl; [reflexivity|]. intros ->. reflexivity. Qed.

Lemma lstrip_split s :
  exists pre, s = pre ++ lstrip s /\ forallb is_space pre = true.
Proof.
  induction s as [|c s (pre & Hs & Hpre)]; simpl.
  - exists []. split; reflexivity.
  - destruct (is_space c) eqn:E.
    + exists (c :: pre). simpl. rewrite E, Hpre. split; [congruence | reflexivity].
    + exists []. split; reflexivity.
Qed.

Lemma lstrip_nil_iff s : lstrip s = [] <-> forallb is_space s = true.
Proof.
  induction s as [|c s IH]; simpl; [tauto|].
  destruct (is_space c); simpl; [exact IH|]. split; discriminate.
Qed.

Lemma forallb_rev {A} (f : A -> bool) l : forallb f (rev l) = forallb f l.
Proof.
  induction l as [|a l IH]; simpl; [reflexivity|].
  rewrite forallb_app, IH. simpl. rewrite andb_true_r. apply andb_comm.
Qed.

Lemma rev_nil_inv {A} (l : list A) : rev l = [] -> l = [].
Proof.
  intros H. apply (f_equal (@rev A)) in H. rewrite rev_involutive in H.
  exact H.
Qed.

Lemma strip_nil_iff s : strip s = [] <-> forallb is_space s = true.
Proof.
  unfold strip, rstrip. split.
  - intros H. apply rev_nil_inv in H. apply lstrip_nil_iff in H.
    rewrite forallb_rev in H. apply lstrip_nil_iff.
    pose proof (lstrip_clean_head s) as Hc.
    destruct (lstrip s) as [|c t]; [reflexivity|].
    simpl in H, Hc. rewrite Hc in H. discriminate.
  - intros H. apply lstrip_nil_iff in H. rewrite H. reflexivity.
Qed.

Lemma rstrip_clean_head s : clean_head s -> clean_head (rstrip s).
Proof.
  intros Hc. unfold rstrip.
  destruct (lstrip_split (rev s)) as (pre & Hs & _).
  apply (f_equal (@rev N)) in Hs.
  rewrite rev_involutive, rev_app_distr in Hs.
  destruct (rev (lstrip (rev s))) as [|c t]; [exact I|].
  rewrite Hs in Hc. exact Hc.
Qed.

Lemma strip_idemp s : strip (strip s) = strip s.
Proof.
  unfold strip.
  rewrite (lstrip_id (rstrip (lstrip s)))
    by (apply rstrip_clean_head, lstrip_clean_head).
  unfold rstrip. rewrite rev_involutive.
  rewrite (lstrip_id (lstrip _)) by apply lstrip_clean_head.
  reflexivity.
Qed.

Lemma is_empty_true s : is_empty s = true <-> s = [].
Proof. destruct s; simpl; split; congruence. Qed.

Lemma is_empty_false s : is_empty s = false <-> s <> [].
Proof. destruct s; simpl; split; congruence. Qed.

Lemma forallb_split_first f sep s :
  forallb f s = true -> forallb f (split_first sep s) = true.
Proof.
  induction s as [|c s IH]; simpl; [reflexivity|].
  intros [Hc Hs]%andb_true_iff.
  destruct (c =? sep)%N; simpl; [reflexivity|].
  rewrite Hc. exact (IH Hs).
Qed.

Lemma strip_split_first_blank sep s :
  strip s = [] -> strip (split_first sep s) = [].
Proof.
  rewrite !strip_nil_iff. apply forallb_split_first.
Qed.

Lemma numeral_char_not_space c : numeral_char c = true -> is_space c = false.
Proof.
  unfold numeral_char, is_space. intros H.
  apply orb_true_iff in H as [[H1 H2]%andb_true_iff | H].
  - apply N.leb_le in H1, H2.
    repeat (apply orb_false_iff; split);
      first [ apply andb_false_iff; (left + right); apply N.leb_gt; lia
            | apply N.eqb_neq; lia ].
  - apply N.eqb_eq in H. subst c. reflexivity.
Qed.

Lemma string_of_uint_chars' d :
  forallb numeral_char (u (NilEmpty.string_of_uint d)) = true.
Proof.
  unfold u. induction d; simpl; try rewrite IHd; reflexivity.
Qed.

Lemma string_of_uint_chars d :
  forallb numeral_char (u (NilZero.string_of_uint d)) = true.
Proof.
  destruct d; try apply string_of_uint_chars'. reflexivity.
Qed.

Lemma string_of_uint_nonempty d :
  d <> Decimal.Nil -> u (NilZero.string_of_uint d) <> [].
Proof. unfold u. destruct d; simpl; congruence. Qed.

Lemma str_of_int_chars n : forallb numeral_char (str_of_int n) = true.
Proof.
  unfold str_of_int. destruct (Z.to_int n) as [d|d]; simpl.
  - apply string_of_uint_chars.
  - apply string_of_uint_chars.
Qed.

Lemma str_of_int_nonempty n : str_of_int n <> [].
Proof.
  unfold str_of_int. destruct n as [|q|q]; simpl; try discriminate.
  apply string_of_uint_nonempty, Unsigned.to_uint_nonnil.
Qed.

Lemma str_of_int_not_blank n : strip (str_of_int n) <> [].
Proof.
  rewrite strip_nil_iff. intros H.
  pose proof (str_of_int_chars n) as Hc.
  pose proof (str_of_int_nonempty n) as Hn.
  destruct (str_of_int n) as [|c s]; [congruence|].
  simpl in H, Hc. apply andb_true_iff in H as [H _], Hc as [Hc _].
  rewrite (numeral_char_not_space _ Hc) in H. discriminate.
Qed.

(** ** Byte arrays and bits *)

Lemma py_index_in len i : 0 <= i < len -> py_index len i = Some (Z.to_nat i).
Proof.
  intros H. unfold py_index.
  destruct (Z.leb_spec 0 i), (Z.ltb_spec i len); simpl; try lia. reflexivity.
Qed.

Lemma bytearray_get_in b i :
  0 <= i < Z.of_nat (length b) ->
  exists v, b !! Z.to_nat i = Some v /\ bytearray_get b i = inr v.
Proof.
  intros H. unfold bytearray_get. rewrite py_index_in by exact H.
  destruct (lookup_lt_is_Some_2 b (Z.to_nat i)) as [v Hv]; [lia|].
  exists v. rewrite Hv. split; reflexivity.
Qed.

Lemma bytearray_get_inv b i v :
  bytearray_get b i = inr v ->
  exists k, py_index (Z.of_nat (length b)) i = Some k /\ b !! k = Some v.
Proof.
  unfold bytearray_get. destruct (py_index _ i) as [k|]; [|discriminate].
  destruct (b !! k) as [w|] eqn:E; [|discriminate].
  intros [= <-]. exists k. split; [reflexivity | exact E].
Qed.

Lemma bytearray_set_inv b i v b' :
  bytearray_set b i v = inr b' ->
  exists k, py_index (Z.of_nat (length b)) i = Some k
            /\ b' = <[k := v]> b /\ 0 <= v < 256.
Proof.
  unfold bytearray_set. destruct (py_index _ i) as [k|]; [|discriminate].
  destruct (Z.leb_spec 0 v), (Z.ltb_spec v 256); simpl; try discriminate.
  intros [= <-]. exists k. repeat split; lia.
Qed.

Lemma bytearray_set_in b i v :
  0 <= i < Z.of_nat (length b) -> 0 <= v < 256 ->
  bytearray_set b i v = inr (<[Z.to_nat i := v]> b).
Proof.
  intros Hi Hv. unfold bytearray_set. rewrite py_index_in by exact Hi.
  destruct (Z.leb_spec 0 v), (Z.ltb_spec v 256); simpl; try lia. reflexivity.
Qed.

Lemma lor_bit_byte old n :
  0 <= old < 256 -> 0 <= n < 8 -> 0 <= Z.lor old (Z.shiftl 1 n) < 256.
Proof.
  intros Ho Hn.
  assert (Hm : 0 < Z.shiftl 1 n) by (rewrite Z.shiftl_1_l; apply Z.pow_pos_nonneg; lia).
  assert (Hl : 0 <= Z.lor old (Z.shiftl 1 n)) by (apply Z.lor_nonneg; lia).
  split; [exact Hl|].
  assert (Hpos : 0 < Z.lor old (Z.shiftl 1 n)).
  { destruct (Z.eq_dec (Z.lor old (Z.shiftl 1 n)) 0) as [E|E]; [|lia].
    apply Z.lor_eq_0_iff in E. lia. }
  change 256 with (2 ^ 8). apply Z.log2_lt_pow2; [exact Hpos|].
  rewrite Z.log2_lor by lia.
  rewrite Z.shiftl_1_l, Z.log2_pow2 by lia.
  apply Z.max_lub_lt; [|lia].
  destruct (Z.eq_dec old 0) as [->|]; [reflexivity|].
  apply Z.log2_lt_pow2; [lia|]. change (2 ^ 8) with 256. lia.
Qed.

Lemma land_7 i : Z.land i 7 = i mod 8.
Proof. change 7 with (Z.ones 3). rewrite Z.land_ones by lia. reflexivity. Qed.

Lemma shiftr_3 i : Z.shiftr i 3 = i / 8.
Proof. rewrite Z.shiftr_div_pow2 by lia. reflexivity. Qed.

Lemma land_shiftr_1 v n :
  0 <= n -> Z.land (Z.shiftr v n) 1 = Z.b2z (Z.testbit v n).
Proof.
  intros Hn. change 1 with (Z.ones 1). rewrite Z.land_ones by lia.
  change (2 ^ 1) with 2. rewrite <- Z.bit0_mod.
  rewrite Z.shiftr_spec by lia. reflexivity.
Qed.

Lemma is_set_insert_lor bits k old mask i :
  bits !! k = Some old ->
  is_set bits i = true ->
  is_set (<[k := Z.lor old mask]> bits) i = true.
Proof.
  intros Hk. unfold is_set.
  destruct (decide (Z.to_nat (Z.shiftr i 3) = k)) as [->|Hne].
  - rewrite list_lookup_insert_eq by (eapply lookup_lt_Some; exact Hk).
    rewrite Hk. intros H. rewrite Z.lor_spec, H. reflexivity.
  - rewrite list_lookup_insert_ne by congruence. trivial.
Qed.

(** ** The Bloom filter's methods *)

Lemma set_bit_inv idx bf r bf' :
  BloomFilter._set_bit idx bf = inr (r, bf') ->
  exists k old,
    BloomFilter._bits bf !! k = Some old
    /\ bf' = BloomFilter.set_bits
               (<[k := Z.lor old (Z.shiftl 1 (Z.land idx 7))]>
                  (BloomFilter._bits bf)) bf.
Proof.
  unfold BloomFilter._set_bit. monad_unfold.
  destruct (bytearray_get _ _) as [e|old] eqn:Hg; [discriminate|].
  destruct (bytearray_set _ _ _) as [e|new] eqn:Hs; [discriminate|].
  intros [= <- <-].
  apply bytearray_get_inv in Hg as (k & Hk & Hold).
  apply bytearray_set_inv in Hs as (k' & Hk' & -> & _).
  assert (k' = k) by congruence. subst k'.
  exists k, old. split; [exact Hold | reflexivity].
Qed.

Lemma set_bit_mono idx bf r bf' :
  BloomFilter._set_bit idx bf = inr (r, bf') ->
  forall i, is_set (BloomFilter._bits bf) i = true ->
            is_set (BloomFilter._bits bf') i = true.
Proof.
  intros H i Hi. apply set_bit_inv in H as (k & old & Hk & ->). simpl.
  apply is_set_insert_lor; assumption.
Qed.

Lemma index_in_bounds bf idx :
  bloom_wf bf -> 0 <= idx < BloomFilter.size bf ->
  0 <= Z.shiftr idx 3 < Z.of_nat (length (BloomFilter._bits bf)).
Proof.
  intros [Hs _ Hl _] Hi. rewrite Hl, shiftr_3.
  split; [apply Z.div_pos; lia|].
  Z.div_mod_to_equations. lia.
Qed.

Lemma set_bit_wf bf idx :
  bloom_wf bf -> 0 <= idx < BloomFilter.size bf ->
  exists bf',
    BloomFilter._set_bit idx bf = inr (tt, bf')
    /\ bloom_wf bf'
    /\ BloomFilter.size bf' = BloomFilter.size bf
    /\ BloomFilter.num_hashes bf' = BloomFilter.num_hashes bf
    /\ is_set (BloomFilter._bits bf') idx = true.
Proof.
  intros Hwf Hi.
  pose proof (index_in_bounds bf idx Hwf Hi) as Hb.
  destruct (bytearray_get_in _ _ Hb) as (old & Hold & Hget).
  assert (Hbyte : 0 <= old < 256).
  { destruct Hwf as [_ _ _ Hall].
    rewrite Forall_lookup in Hall. exact (Hall _ _ Hold). }
  assert (Hn : 0 <= Z.land idx 7 < 8)
    by (rewrite land_7; apply Z.mod_pos_bound; lia).
  pose proof (lor_bit_byte old _ Hbyte Hn) as Hnew.
  eexists. split.
  { unfold BloomFilter._set_bit. monad_unfold. rewrite Hget.
    rewrite (bytearray_set_in _ _ _ Hb Hnew). reflexivity. }
  destruct Hwf as [Hs Hk Hl Hall].
  split; [|split; [reflexivity|split; [reflexivity|]]].
  - constructor; simpl; try assumption.
    + rewrite length_insert. exact Hl.
    + apply Forall_insert; assumption.
  - simpl. unfold is_set.
    rewrite list_lookup_insert_eq by (eapply lookup_lt_Some; exact Hold).
    rewrite Z.lor_spec, Z.shiftl_1_l, Z.pow2_bits_true by lia.
    apply orb_true_r.
Qed.

Lemma get_bit_wf bf idx :
  bloom_wf bf -> 0 <= idx < BloomFilter.size bf ->
  BloomFilter._get_bit idx bf
  = inr (Z.b2z (is_set (BloomFilter._bits bf) idx), bf).
Proof.
  intros Hwf Hi.
  pose proof (index_in_bounds bf idx Hwf Hi) as Hb.
  destruct (bytearray_get_in _ _ Hb) as (v & Hv & Hget).
  unfold BloomFilter._get_bit. monad_unfold. rewrite Hget.
  unfold is_set. rewrite Hv.
  rewrite land_shiftr_1 by (rewrite land_7; apply Z.mod_pos_bound; lia).
  reflexivity.
Qed.

Lemma probe_in_range bf s i :
  bloom_wf bf ->
  py_mod (Mmh3.hash s i) (BloomFilter.size bf)
    = inr (Mmh3.hash s i mod BloomFilter.size bf)
  /\ 0 <= Mmh3.hash s i mod BloomFilter.size bf < BloomFilter.size bf.
Proof.
  intros [Hs _ _ _]. unfold py_mod.
  destruct (Z.eqb_spec (BloomFilter.size bf) 0); [lia|].
  split; [reflexivity | apply Z.mod_pos_bound; lia].
Qed.

Lemma bits_kept_refl bf : bits_kept bf bf.
Proof. intros i H. exact H. Qed.

Lemma bits_kept_trans a b c : bits_kept a b -> bits_kept b c -> bits_kept a c.
Proof. intros H1 H2 i H. apply H2, H1, H. Qed.

Lemma same_shape_trans a b c : same_shape a b -> same_shape b c -> same_shape a c.
Proof. unfold same_shape. intros [] []. split; congruence. Qed.

Lemma all_probes_kept bf bf' s :
  same_shape bf bf' -> bits_kept bf bf' ->
  all_probes_set bf s -> all_probes_set bf' s.
Proof.
  intros [Hs Hk] Hb H i Hi. rewrite Hs. apply Hb, H. rewrite <- Hk. exact Hi.
Qed.

(** The loop of [add] over any list of seeds. *)
Lemma add_loop_wf s xs : forall bf,
  bloom_wf bf ->
  exists bf',
    for_ xs (fun i =>
      sz <~ gets BloomFilter.size ;;
      idx <~ lift (py_mod (Mmh3.hash s i) sz) ;;
      BloomFilter._set_bit idx) bf = inr (tt, bf')
    /\ bloom_wf bf' /\ same_shape bf bf' /\ bits_kept bf bf'
    /\ forall i, i ∈ xs ->
         is_set (BloomFilter._bits bf')
                (Mmh3.hash s i mod BloomFilter.size bf) = true.
Proof.
  induction xs as [|x xs IH]; intros bf Hwf.
  - exists bf. simpl. unfold ret.
    split; [reflexivity|]. split; [exact Hwf|].
    split; [split; reflexivity|]. split; [apply bits_kept_refl|].
    intros i Hi. inversion Hi.
  - destruct (probe_in_range bf s x Hwf) as [Hmod Hrange].
    destruct (set_bit_wf bf _ Hwf Hrange) as (bf1 & Hset & Hwf1 & Hs1 & Hk1 & Hbit).
    destruct (IH bf1 Hwf1) as (bf2 & Hrun & Hwf2 & [Hs2 Hk2] & Hkept & Hall).
    exists bf2. split.
    { simpl. monad_unfold. rewrite Hmod, Hset. exact Hrun. }
    split; [exact Hwf2|]. split; [split; congruence|].
    split.
    { eapply bits_kept_trans; [|exact Hkept].
      intros i. eapply set_bit_mono. exact Hset. }
    intros i Hi. apply elem_of_cons in Hi as [->|Hi].
    + apply Hkept, Hbit.
    + rewrite <- Hs1. apply Hall, Hi.
Qed.

Lemma add_blank item bf :
  blank item -> BloomFilter.add item bf = inr (false, bf).
Proof.
  unfold blank, BloomFilter.add. intros ->. reflexivity.
Qed.

Lemma contains_blank item bf :
  blank item -> BloomFilter.contains item bf = inr (false, bf).
Proof.
  unfold blank, BloomFilter.contains. intros ->. reflexivity.
Qed.

Lemma add_wf item bf :
  bloom_wf bf -> ~ blank item ->
  exists bf',
    BloomFilter.add item bf = inr (true, bf')
    /\ bloom_wf bf' /\ same_shape bf bf' /\ bits_kept bf bf'
    /\ all_probes_set bf' (BloomFilter._normalize item).
Proof.
  intros Hwf Hnb.
  destruct (add_loop_wf (BloomFilter._normalize item)
              (range (BloomFilter.num_hashes bf)) bf Hwf)
    as (bf' & Hrun & Hwf' & Hshape & Hkept & Hall).
  exists bf'. split.
  { unfold BloomFilter.add.
    apply is_empty_false in Hnb. unfold blank in Hnb. rewrite Hnb.
    monad_unfold. rewrite Hrun. reflexivity. }
  repeat (split; [assumption|]).
  intros i Hi. destruct Hshape as [Hs Hk]. rewrite Hs. apply Hall.
  unfold range. apply elem_of_seqZ. lia.
Qed.

(** The loop of [contains] over any list of seeds. *)
Lemma contains_loop_wf s bf xs :
  bloom_wf bf ->
  exists r,
    for_return xs (fun i =>
      sz <~ gets BloomFilter.size ;;
      idx <~ lift (py_mod (Mmh3.hash s i) sz) ;;
      bit <~ BloomFilter._get_bit idx ;;
      if bit =? 0 then ret (Some false) else ret None) bf = inr (r, bf)
    /\ (r = None \/ r = Some false)
    /\ (r = None <->
        forall i, i ∈ xs ->
          is_set (BloomFilter._bits bf)
                 (Mmh3.hash s i mod BloomFilter.size bf) = true).
Proof.
  intros Hwf. induction xs as [|x xs (r & Hrun & Hr & Hiff)].
  - exists None. simpl. split; [reflexivity|]. split; [left; reflexivity|].
    split; [intros _ i Hi; inversion Hi | reflexivity].
  - destruct (probe_in_range bf s x Hwf) as [Hmod Hrange].
    pose proof (get_bit_wf bf _ Hwf Hrange) as Hget.
    destruct (is_set (BloomFilter._bits bf)
                (Mmh3.hash s x mod BloomFilter.size bf)) eqn:Hbit.
    + exists r. split.
      { simpl. monad_unfold. rewrite Hmod, Hget. simpl. exact Hrun. }
      split; [exact Hr|]. rewrite Hiff. split.
      * intros H i Hi. apply elem_of_cons in Hi as [->|Hi]; auto.
      * intros H i Hi. apply H. apply elem_of_cons. right. exact Hi.
    + exists (Some false). split.
      { simpl. monad_unfold. rewrite Hmod, Hget. reflexivity. }
      split; [right; reflexivity|]. split; [discriminate|].
      intros H. specialize (H x). rewrite Hbit in H.
      assert (x ∈ x :: xs) as Hx by (apply elem_of_cons; left; reflexivity).
      specialize (H Hx). discriminate.
Qed.

Lemma contains_wf item bf :
  bloom_wf bf -> ~ blank item ->
  exists r,
    BloomFilter.contains item bf = inr (r, bf)
    /\ (r = true <-> all_probes_set bf (BloomFilter._normalize item)).
Proof.
  intros Hwf Hnb.
  destruct (contains_loop_wf (BloomFilter._normalize item) bf
              (range (BloomFilter.num_hashes bf)) Hwf)
    as (r & Hrun & Hr & Hiff).
  assert (Hall : r = None <-> all_probes_set bf (BloomFilter._normalize item)).
  { rewrite Hiff. unfold all_probes_set, range. split.
    - intros H i Hi. apply H, elem_of_seqZ. lia.
    - intros H i Hi. apply H. apply elem_of_seqZ in Hi. lia. }
  apply is_empty_false in Hnb. unfold blank in Hnb.
  destruct Hr as [-> | ->].
  - exists true. split.
    + unfold BloomFilter.contains. rewrite Hnb. monad_unfold.
      rewrite Hrun. reflexivity.
    + split; [intros _; apply Hall; reflexivity | reflexivity].
  - exists false. split.
    + unfold BloomFilter.contains. rewrite Hnb. monad_unfold.
      rewrite Hrun. reflexivity.
    + split; [discriminate|]. intros H. apply Hall in H. discriminate.
Qed.

Lemma blank_dec item : {blank item} + {~ blank item}.
Proof.
  unfold blank.
  destruct (decide (strip (BloomFilter._normalize item) = []));
    [left | right]; assumption.
Qed.

(** Any call on a well-formed filter returns, keeps the filter
    well-formed and clears no bit. *)
Lemma do_call_wf c bf :
  bloom_wf bf ->
  exists r bf',
    do_call c bf = inr (r, bf')
    /\ bloom_wf bf' /\ same_shape bf bf' /\ bits_kept bf bf'.
Proof.
  intros Hwf. destruct c as [item|item]; simpl;
    destruct (blank_dec item) as [Hb|Hb].
  - exists false, bf. rewrite add_blank by exact Hb.
    split; [reflexivity|]. split; [exact Hwf|].
    split; [split; reflexivity | apply bits_kept_refl].
  - destruct (add_wf item bf Hwf Hb) as (bf' & H & ? & ? & ? & _).
    exists true, bf'. auto.
  - exists false, bf. rewrite contains_blank by exact Hb.
    split; [reflexivity|]. split; [exact Hwf|].
    split; [split; reflexivity | apply bits_kept_refl].
  - destruct (contains_wf item bf Hwf Hb) as (r & H & _).
    exists r, bf. split; [exact H|]. split; [exact Hwf|].
    split; [split; reflexivity | apply bits_kept_refl].
Qed.

Lemma do_calls_wf cs : forall bf,
  bloom_wf bf ->
  exists rs bf',
    do_calls cs bf = inr (rs, bf')
    /\ length rs = length cs
    /\ bloom_wf bf' /\ same_shape bf bf' /\ bits_kept bf bf'.
Proof.
  induction cs as [|c cs IH]; intros bf Hwf.
  - exists [], bf. split; [reflexivity|]. split; [reflexivity|].
    split; [exact Hwf|].
    split; [split; reflexivity | apply bits_kept_refl].
  - destruct (do_call_wf c bf Hwf) as (r & bf1 & Hc & Hwf1 & Hs1 & Hk1).
    destruct (IH bf1 Hwf1) as (rs & bf2 & Hcs & Hlen & Hwf2 & Hs2 & Hk2).
    exists (r :: rs), bf2. split.
    { simpl. monad_unfold. rewrite Hc, Hcs. reflexivity. }
    split; [simpl; congruence|].
    split; [exact Hwf2|].
    split; [eapply same_shape_trans; eassumption|].
    eapply bits_kept_trans; eassumption.
Qed.

Lemma init_wf sz k :
  0 < sz -> 0 < k ->
  exists bf,
    BloomFilter.__init__ (PInt sz) (PInt k) = inr bf
    /\ bloom_wf bf
    /\ BloomFilter.size bf = sz /\ BloomFilter.num_hashes bf = k
    /\ BloomFilter._bits bf = replicate (Z.to_nat ((sz + 7) / 8)) 0.
Proof.
  intros Hs Hk. unfold BloomFilter.__init__, bytearray.
  destruct (Z.leb_spec sz 0); [lia|]. destruct (Z.leb_spec k 0); [lia|].
  assert (0 <= (sz + 7) / 8) by (apply Z.div_pos; lia).
  destruct (Z.ltb_spec ((sz + 7) / 8) 0); [lia|].
  eexists. split; [reflexivity|]. split; [|auto].
  constructor; simpl; try lia.
  - rewrite length_replicate. lia.
  - apply Forall_replicate. lia.
Qed.

(** ** The Bloom filter: claims *)

(** C1. No false negatives: on a filter created with positive [size] and
    [num_hashes], brought to any state by earlier calls, an item whose
    normalized string is not blank is accepted by [add] (it returns
    [True]); [contains] then returns [True] for it, and still does after
    any further sequence of calls. *)
Theorem no_false_negatives sz k (pre : list call) item (post : list call) :
  0 < sz -> 0 < k -> ~ blank item ->
  exists bf0 rs1 bf1 bf2 rs2 bf3,
    BloomFilter.__init__ (PInt sz) (PInt k) = inr bf0
    /\ do_calls pre bf0 = inr (rs1, bf1)
    /\ BloomFilter.add item bf1 = inr (true, bf2)
    /\ BloomFilter.contains item bf2 = inr (true, bf2)
    /\ do_calls post bf2 = inr (rs2, bf3)
    /\ BloomFilter.contains item bf3 = inr (true, bf3).
Proof.
  intros Hsz Hk Hnb.
  destruct (init_wf sz k Hsz Hk) as (bf0 & Hinit & Hwf0 & _).
  destruct (do_calls_wf pre bf0 Hwf0) as (rs1 & bf1 & Hpre & _ & Hwf1 & _).
  destruct (add_wf item bf1 Hwf1 Hnb) as (bf2 & Hadd & Hwf2 & _ & _ & Hall).
  destruct (do_calls_wf post bf2 Hwf2)
    as (rs2 & bf3 & Hpost & _ & Hwf3 & Hshape & Hkept).
  destruct (contains_wf item bf2 Hwf2 Hnb) as (r2 & Hc2 & Hr2).
  destruct (contains_wf item bf3 Hwf3 Hnb) as (r3 & Hc3 & Hr3).
  assert (r2 = true) by (apply Hr2, Hall). subst r2.
  assert (r3 = true)
    by (apply Hr3; eapply all_probes_kept; eassumption). subst r3.
  exists bf0, rs1, bf1, bf2, rs2, bf3. auto 10.
Qed.

Lemma no_false_negatives_witness :
  exists bf0 rs1 bf1 bf2 rs2 bf3,
    BloomFilter.__init__ (PInt 1000) (PInt 3) = inr bf0
    /\ do_calls [CallAdd (PStr (u "password123")); CallAdd (PInt 7)] bf0
       = inr (rs1, bf1)
    /\ BloomFilter.add (PStr (u "newpassword")) bf1 = inr (true, bf2)
    /\ BloomFilter.contains (PStr (u "newpassword")) bf2 = inr (true, bf2)
    /\ do_calls [CallAdd (PStr (u "guest")); CallContains PNone] bf2
       = inr (rs2, bf3)
    /\ BloomFilter.contains (PStr (u "newpassword")) bf3 = inr (true, bf3).
Proof.
  apply (no_false_negatives 1000 3
           [CallAdd (PStr (u "password123")); CallAdd (PInt 7)]
           (PStr (u "newpassword"))
           [CallAdd (PStr (u "guest")); CallContains PNone]).
  - lia.
  - lia.
  - unfold blank. vm_compute. discriminate.
Defined.

(** C2. Rejection of invalid input without mutation: on any filter, if
    the normalized string of the input is empty or whitespace-only, [add]
    returns [False] and leaves the filter, bit array included, as it was,
    and [contains] returns [False]; neither raises. *)
Theorem invalid_input_rejected bf item :
  blank item ->
  BloomFilter.add item bf = inr (false, bf)
  /\ BloomFilter.contains item bf = inr (false, bf).
Proof.
  intros Hb. split; [apply add_blank | apply contains_blank]; exact Hb.
Qed.

Lemma invalid_input_rejected_witness :
  BloomFilter.add (PStr (u "   ")) (BloomFilter.mk 16 2 [5; 128])
    = inr (false, BloomFilter.mk 16 2 [5; 128])
  /\ BloomFilter.contains (PStr (u "   ")) (BloomFilter.mk 16 2 [5; 128])
    = inr (false, BloomFilter.mk 16 2 [5; 128]).
Proof.
  apply (invalid_input_rejected (BloomFilter.mk 16 2 [5; 128])
           (PStr (u "   "))).
  unfold blank. vm_compute. reflexivity.
Defined.

(** The three inputs the specification names are blank. *)
Lemma blank_inputs :
  blank PNone /\ blank (PStr (u "")) /\ blank (PStr (u "   ")).
Proof. repeat split; vm_compute; reflexivity. Qed.

(** C7. Monotonic bits: over the life of a filter, from its creation
    through any calls [pre] and then any calls [cs] of [add] and
    [contains], every bit position set before [cs] is set after it; and
    [contains] leaves the filter as it found it. *)
Theorem monotonic_bits sz k (pre cs : list call) :
  0 < sz -> 0 < k ->
  exists bf0 rs1 bf1 rs2 bf2,
    BloomFilter.__init__ (PInt sz) (PInt k) = inr bf0
    /\ do_calls pre bf0 = inr (rs1, bf1)
    /\ do_calls cs bf1 = inr (rs2, bf2)
    /\ (forall i, is_set (BloomFilter._bits bf1) i = true ->
                  is_set (BloomFilter._bits bf2) i = true)
    /\ (forall item, exists r,
          BloomFilter.contains item bf1 = inr (r, bf1)).
Proof.
  intros Hsz Hk.
  destruct (init_wf sz k Hsz Hk) as (bf0 & Hinit & Hwf0 & _).
  destruct (do_calls_wf pre bf0 Hwf0) as (rs1 & bf1 & Hpre & _ & Hwf1 & _).
  destruct (do_calls_wf cs bf1 Hwf1) as (rs2 & bf2 & Hcs & _ & _ & _ & Hkept).
  exists bf0, rs1, bf1, rs2, bf2.
  repeat (split; [assumption|]).
  intros item.
  destruct (blank_dec item) as [Hb|Hb].
  - exists false. apply contains_blank, Hb.
  - destruct (contains_wf item bf1 Hwf1 Hb) as (r' & Hr & _).
    exists r'. exact Hr.
Qed.

Lemma monotonic_bits_witness :
  exists bf0 rs1 bf1 rs2 bf2,
    BloomFilter.__init__ (PInt 64) (PInt 2) = inr bf0
    /\ do_calls [CallAdd (PStr (u "admin123"))] bf0 = inr (rs1, bf1)
    /\ do_calls [CallContains (PStr (u "x")); CallAdd (PStr (u "qwerty123"))]
         bf1 = inr (rs2, bf2)
    /\ (forall i, is_set (BloomFilter._bits bf1) i = true ->
                  is_set (BloomFilter._bits bf2) i = true)
    /\ (forall item, exists r,
          BloomFilter.contains item bf1 = inr (r, bf1)).
Proof.
  apply (monotonic_bits 64 2 [CallAdd (PStr (u "admin123"))]
           [CallContains (PStr (u "x")); CallAdd (PStr (u "qwerty123"))]);
    lia.
Defined.

(** C9. Index safety: on a filter built by the constructor and brought to
    any state by calls, the bit index computed for any string and seed is
    within [0, size); its byte index [idx >> 3] is below the length of
    the byte array, which is [ceil(size / 8)]; [_set_bit] and [_get_bit]
    at that index return, and so do [add] and [contains] on any item. *)
Theorem index_safety sz k (pre : list call) (s : str) (i : Z) :
  0 < sz -> 0 < k ->
  exists bf0 rs bf,
    BloomFilter.__init__ (PInt sz) (PInt k) = inr bf0
    /\ do_calls pre bf0 = inr (rs, bf)
    /\ BloomFilter.size bf = sz
    /\ (let idx := Mmh3.hash s i mod BloomFilter.size bf in
        let len := Z.of_nat (length (BloomFilter._bits bf)) in
        py_mod (Mmh3.hash s i) (BloomFilter.size bf) = inr idx
        /\ 0 <= idx < BloomFilter.size bf
        /\ 0 <= Z.shiftr idx 3 < len
        /\ len = (BloomFilter.size bf + 7) / 8
        /\ 8 * (len - 1) < BloomFilter.size bf <= 8 * len
        /\ (exists bf', BloomFilter._set_bit idx bf = inr (tt, bf'))
        /\ (exists b, BloomFilter._get_bit idx bf = inr (b, bf)))
    /\ (forall item, exists r bf', BloomFilter.add item bf = inr (r, bf'))
    /\ (forall item, exists r, BloomFilter.contains item bf = inr (r, bf)).
Proof.
  intros Hsz Hk.
  destruct (init_wf sz k Hsz Hk) as (bf0 & Hinit & Hwf0 & Hs0 & _).
  destruct (do_calls_wf pre bf0 Hwf0) as (rs & bf & Hpre & _ & Hwf & [Hs _] & _).
  exists bf0, rs, bf.
  split; [exact Hinit|]. split; [exact Hpre|]. split; [congruence|].
  destruct (probe_in_range bf s i Hwf) as [Hmod Hrange].
  split; [|split].
  - cbv zeta. split; [exact Hmod|]. split; [exact Hrange|].
    split; [apply index_in_bounds; assumption|].
    pose proof (wf_length bf Hwf) as Hl. pose proof (wf_size bf Hwf) as Hp.
    split; [exact Hl|]. split.
    { rewrite Hl. Z.div_mod_to_equations. lia. }
    destruct (set_bit_wf bf _ Hwf Hrange) as (bf' & Hset & _).
    split; [exists bf'; exact Hset|].
    eexists. apply get_bit_wf; assumption.
  - intros item.
    destruct (do_call_wf (CallAdd item) bf Hwf) as (r & bf' & H & _).
    exists r, bf'. exact H.
  - intros item. destruct (blank_dec item) as [Hb|Hb].
    + exists false. apply contains_blank, Hb.
    + destruct (contains_wf item bf Hwf Hb) as (r & Hr & _).
      exists r. exact Hr.
Qed.

Lemma index_safety_witness :
  exists bf0 rs bf,
    BloomFilter.__init__ (PInt 13) (PInt 3) = inr bf0
    /\ do_calls [CallAdd (PStr (u "qwerty123"))] bf0 = inr (rs, bf)
    /\ BloomFilter.size bf = 13
    /\ (let idx := Mmh3.hash (u "guest") 2 mod BloomFilter.size bf in
        let len := Z.of_nat (length (BloomFilter._bits bf)) in
        py_mod (Mmh3.hash (u "guest") 2) (BloomFilter.size bf) = inr idx
        /\ 0 <= idx < BloomFilter.size bf
        /\ 0 <= Z.shiftr idx 3 < len
        /\ len = (BloomFilter.size bf + 7) / 8
        /\ 8 * (len - 1) < BloomFilter.size bf <= 8 * len
        /\ (exists bf', BloomFilter._set_bit idx bf = inr (tt, bf'))
        /\ (exists b, BloomFilter._get_bit idx bf = inr (b, bf)))
    /\ (forall item, exists r bf', BloomFilter.add item bf = inr (r, bf'))
    /\ (forall item, exists r, BloomFilter.contains item bf = inr (r, bf)).
Proof.
  apply (index_safety 13 3 [CallAdd (PStr (u "qwerty123"))] (u "guest") 2);
    lia.
Defined.

(** ** The batch check *)

Lemma rejected_blank p : rejected p = true -> blank p.
Proof.
  unfold blank. destruct p as [|s|n|s]; simpl.
  - reflexivity.
  - apply is_empty_true.
  - discriminate.
  - discriminate.
Qed.

(** For [None], a [str] and an [int] the test of the loop is the test
    of [add] and [contains]; for other objects it is not. *)
Lemma blank_rejected p :
  (forall s, p <> PObj s) -> blank p -> rejected p = true.
Proof.
  unfold blank. destruct p as [|s|n|s]; simpl; intros Hobj Hb.
  - reflexivity.
  - apply is_empty_true. exact Hb.
  - destruct (str_of_int_not_blank n Hb).
  - destruct (Hobj s eq_refl).
Qed.

Lemma statuses_distinct :
  status_invalid <> status_used
  /\ status_invalid <> status_unique
  /\ status_used <> status_unique.
Proof. repeat split; discriminate. Qed.

Lemma classified_wf bf p l bf' :
  bloom_wf bf -> classified bf p l bf' ->
  bloom_wf bf' /\ same_shape bf bf' /\ bits_kept bf bf'
  /\ (l = status_unique -> ~ blank p ->
      all_probes_set bf' (BloomFilter._normalize p)).
Proof.
  intros Hwf Hc. destruct Hc as [Hrej | Hrej Hc | r bf' Hrej Hc Ha].
  - split; [exact Hwf|]. split; [split; reflexivity|].
    split; [apply bits_kept_refl | discriminate].
  - split; [exact Hwf|]. split; [split; reflexivity|].
    split; [apply bits_kept_refl | discriminate].
  - destruct (blank_dec p) as [Hb|Hnb].
    + rewrite add_blank in Ha by exact Hb. injection Ha as _ <-.
      split; [exact Hwf|]. split; [split; reflexivity|].
      split; [apply bits_kept_refl|]. intros _ Hnb. contradiction.
    + destruct (add_wf p bf Hwf Hnb) as (bf2 & Ha2 & ? & ? & ? & ?).
      assert (bf2 = bf') by congruence. subst bf2. auto.
Qed.

Lemma classified_seen bf q l bf' :
  bloom_wf bf -> ~ blank q ->
  all_probes_set bf (BloomFilter._normalize q) ->
  classified bf q l bf' -> l = status_used /\ bf' = bf.
Proof.
  intros Hwf Hnb Hall Hc.
  destruct (contains_wf q bf Hwf Hnb) as (r & Hr & Hiff).
  destruct Hc as [Hrej | _ _ | r' bf' _ Hc _].
  - apply rejected_blank in Hrej. contradiction.
  - split; reflexivity.
  - assert (r = false) by congruence. subst r.
    apply Hiff in Hall. discriminate.
Qed.

Lemma classified_deterministic bf p l1 bf1 l2 bf2 :
  classified bf p l1 bf1 -> classified bf p l2 bf2 -> l1 = l2 /\ bf1 = bf2.
Proof.
  intros H1 H2.
  destruct H1 as [Hb | Hnb Hc | r1 bf1 Hnb Hc Ha];
    destruct H2 as [Hb' | Hnb' Hc' | r2 bf2 Hnb' Hc' Ha'];
    try congruence; split; congruence.
Qed.

Lemma check_one_classified results p bf :
  bloom_wf bf ->
  exists l bf',
    check_one results p bf = inr (<[result_key p := l]> results, bf')
    /\ classified bf p l bf'.
Proof.
  intros Hwf. unfold check_one.
  destruct (rejected p) eqn:Hrej.
  - exists status_invalid, bf. split; [reflexivity|].
    constructor. exact Hrej.
  - destruct (blank_dec p) as [Hb|Hnb].
    + pose proof (contains_blank p bf Hb) as Hc.
      pose proof (add_blank p bf Hb) as Ha.
      monad_unfold. rewrite Hc, Ha.
      exists status_unique, bf. split; [reflexivity|].
      econstructor; eassumption.
    + destruct (contains_wf p bf Hwf Hnb) as (r & Hr & _).
      monad_unfold. rewrite Hr. destruct r.
      * exists status_used, bf. split; [reflexivity|].
        constructor; assumption.
      * destruct (add_wf p bf Hwf Hnb) as (bf' & Ha & _).
        rewrite Ha. exists status_unique, bf'. split; [reflexivity|].
        econstructor; eassumption.
Qed.

Lemma check_loop_classified ps : forall results bf,
  bloom_wf bf ->
  exists ls bf',
    batch_classified bf ps ls bf'
    /\ check_loop results ps bf
       = inr (record_all results (zip (result_key <$> ps) ls), bf')
    /\ bloom_wf bf'.
Proof.
  induction ps as [|p ps IH]; intros results bf Hwf.
  - exists [], bf. split; [constructor|]. split; [reflexivity | exact Hwf].
  - destruct (check_one_classified results p bf Hwf) as (l & bf1 & Hone & Hc).
    destruct (classified_wf bf p l bf1 Hwf Hc) as (Hwf1 & _).
    destruct (IH (<[result_key p := l]> results) bf1 Hwf1)
      as (ls & bf2 & Hb & Hloop & Hwf2).
    exists (l :: ls), bf2. split; [econstructor; eassumption|].
    split; [|exact Hwf2].
    simpl. monad_unfold. rewrite Hone. exact Hloop.
Qed.

Lemma batch_classified_length bf ps ls bf' :
  batch_classified bf ps ls bf' -> length ls = length ps.
Proof. induction 1; simpl; congruence. Qed.

Lemma batch_classified_deterministic bf ps ls1 bf1 :
  batch_classified bf ps ls1 bf1 ->
  forall ls2 bf2, batch_classified bf ps ls2 bf2 -> ls1 = ls2 /\ bf1 = bf2.
Proof.
  induction 1 as [bf | bf p l bfm ps ls bf1 Hc Hb IH]; intros ls2 bf2 H2.
  - inversion H2; subst. split; reflexivity.
  - inversion H2 as [| ? ? l' bfm' ? ls' ? Hc' Hb']; subst.
    destruct (classified_deterministic _ _ _ _ _ _ Hc Hc') as [-> ->].
    destruct (IH _ _ Hb') as [-> ->]. split; reflexivity.
Qed.

(** Once every probe of a string is set, each later candidate with that
    normalized string is a duplicate. *)
Lemma batch_seen bf ps ls bf' :
  batch_classified bf ps ls bf' ->
  forall s, bloom_wf bf -> strip s <> [] -> all_probes_set bf s ->
  forall j q, ps !! j = Some q -> BloomFilter._normalize q = s ->
              ls !! j = Some status_used.
Proof.
  induction 1 as [bf | bf p l bf1 ps ls bf2 Hc Hb IH];
    intros s Hwf Hs Hall j q Hj Hq.
  - rewrite lookup_nil in Hj. discriminate.
  - destruct (classified_wf bf p l bf1 Hwf Hc) as (Hwf1 & Hshape & Hkept & _).
    destruct j as [|j]; simpl in Hj |- *.
    + injection Hj as ->. subst s.
      destruct (classified_seen bf q l bf1 Hwf Hs Hall Hc) as [-> _].
      reflexivity.
    + eapply IH; eauto using all_probes_kept.
Qed.

Lemma batch_duplicates bf ps ls bf' :
  batch_classified bf ps ls bf' -> bloom_wf bf ->
  forall i j p q, (i < j)%nat ->
    ps !! i = Some p -> ls !! i = Some status_unique -> ~ blank p ->
    ps !! j = Some q ->
    BloomFilter._normalize q = BloomFilter._normalize p ->
    ls !! j = Some status_used.
Proof.
  induction 1 as [bf | bf p0 l bf1 ps ls bf2 Hc Hb IH];
    intros Hwf i j p q Hij Hi Hli Hnb Hj Hq.
  - rewrite lookup_nil in Hi. discriminate.
  - destruct (classified_wf bf p0 l bf1 Hwf Hc) as (Hwf1 & _ & _ & Hprobes).
    destruct j as [|j]; [lia|]. simpl in Hj |- *.
    destruct i as [|i]; simpl in Hi, Hli.
    + injection Hi as ->. injection Hli as ->.
      eapply (batch_seen _ _ _ _ Hb (BloomFilter._normalize p)); eauto.
    + eapply (IH Hwf1 i j p q); eauto. lia.
Qed.

(** Every assignment of the loop body goes to the key of the candidate. *)
Lemma check_one_key results p bf r bf' :
  check_one results p bf = inr (r, bf') ->
  exists l, r = <[result_key p := l]> results
            /\ (p = PNone -> l = status_invalid).
Proof.
  unfold check_one. destruct (rejected p) eqn:Hrej.
  - intros [= <- <-]. exists status_invalid. split; reflexivity.
  - monad_unfold.
    destruct (BloomFilter.contains p bf) as [e|[seen bf1]]; [discriminate|].
    destruct seen.
    + intros [= <- <-]. exists status_used. split; [reflexivity|].
      intros ->. discriminate.
    + destruct (BloomFilter.add p bf1) as [e|[a bf2]]; [discriminate|].
      intros [= <- <-]. exists status_unique. split; [reflexivity|].
      intros ->. discriminate.
Qed.

Lemma none_key_inv q :
  result_key q = u "None" ->
  q = PNone \/ q = PStr (u "None") \/ q = PObj (u "None").
Proof.
  destruct q as [|s|n|s]; simpl.
  - left. reflexivity.
  - intros ->. right. left. reflexivity.
  - intros H. pose proof (str_of_int_chars n) as Hc. rewrite H in Hc.
    discriminate.
  - intros ->. right. right. reflexivity.
Qed.

Lemma check_loop_none_kept ps : forall results bf r bf',
  check_loop results ps bf = inr (r, bf') ->
  results !! u "None" = Some status_invalid ->
  (forall q, q ∈ ps -> result_key q = u "None" -> q = PNone) ->
  r !! u "None" = Some status_invalid.
Proof.
  induction ps as [|q ps IH]; intros results bf r bf' Hrun Hres Hnot.
  - injection Hrun as <- <-. exact Hres.
  - simpl in Hrun. monad_unfold.
    destruct (check_one results q bf) as [e|[r1 bf1]] eqn:Hone; [discriminate|].
    apply (IH _ _ _ _ Hrun);
      [|intros q' Hq'; apply Hnot, elem_of_cons; right; exact Hq'].
    apply check_one_key in Hone as (l & -> & Hl).
    destruct (decide (result_key q = u "None")) as [Hk|Hk].
    + rewrite Hk, lookup_insert_eq.
      rewrite Hl; [reflexivity|].
      apply Hnot; [apply elem_of_cons; left; reflexivity | exact Hk].
    + rewrite lookup_insert_ne by exact Hk. exact Hres.
Qed.

Lemma check_loop_app ps1 ps2 results bf :
  check_loop results (ps1 ++ ps2) bf
  = (r1 <~ check_loop results ps1 ;; check_loop r1 ps2) bf.
Proof.
  revert results bf. induction ps1 as [|p ps1 IH]; intros results bf.
  - reflexivity.
  - simpl. monad_unfold.
    destruct (check_one results p bf) as [e|[r1 bf1]]; [reflexivity|].
    apply IH.
Qed.

Lemma batch_invalid_iff bf ps ls bf' :
  batch_classified bf ps ls bf' ->
  forall i p l, ps !! i = Some p -> ls !! i = Some l ->
                (l = status_invalid <-> rejected p = true).
Proof.
  induction 1 as [bf | bf p0 l0 bf1 ps ls bf2 Hc Hb IH]; intros i p l Hp Hl.
  - rewrite lookup_nil in Hp. discriminate.
  - destruct i as [|i]; simpl in Hp, Hl; [|exact (IH i p l Hp Hl)].
    injection Hp as ->. injection Hl as ->.
    destruct Hc as [Hrej | Hrej _ | r bf' Hrej _ _]; rewrite Hrej;
      split; intros H; try reflexivity; discriminate.
Qed.

Lemma blank_object_step results s bf :
  strip s = [] ->
  check_one results (PObj s) bf = inr (<[s := status_unique]> results, bf).
Proof.
  intros Hs. unfold check_one. cbn [rejected result_key]. monad_unfold.
  rewrite (contains_blank (PObj s) bf Hs), (add_blank (PObj s) bf Hs).
  reflexivity.
Qed.

(** C3. The batch check at a candidate that is not a [str] and whose
    string form is blank: such a candidate normalizes to whitespace, and
    [add] refuses it, yet the loop labels it unique, not invalid; the
    filter is left as it was, and the same candidate coming again in the
    batch is labelled unique again, not duplicate. *)
Theorem blank_object_labelled_unique :
  exists bf0,
    BloomFilter.__init__ (PInt 1000) (PInt 3) = inr bf0
    /\ blank (PObj (u " "))
    /\ rejected (PObj (u " ")) = false
    /\ BloomFilter.add (PObj (u " ")) bf0 = inr (false, bf0)
    /\ batch_classified bf0 [PObj (u " "); PObj (u " ")]
         [status_unique; status_unique] bf0
    /\ check_password_uniqueness [PObj (u " "); PObj (u " ")] bf0
       = inr (<[u " " := status_unique]> (<[u " " := status_unique]> ∅), bf0)
    /\ status_unique <> status_invalid
    /\ status_unique <> status_used.
Proof.
  destruct (init_wf 1000 3 ltac:(lia) ltac:(lia)) as (bf0 & Hinit & _).
  assert (Hb : blank (PObj (u " "))) by (vm_compute; reflexivity).
  assert (Hc : classified bf0 (PObj (u " ")) status_unique bf0).
  { apply (classified_unique bf0 _ false bf0);
      [reflexivity | apply contains_blank, Hb | apply add_blank, Hb]. }
  exists bf0. split; [exact Hinit|]. split; [exact Hb|].
  split; [reflexivity|]. split; [apply add_blank, Hb|].
  split; [repeat (econstructor; [exact Hc|]); constructor|].
  split.
  { unfold check_password_uniqueness. cbn [check_loop]. monad_unfold.
    rewrite !blank_object_step by exact Hb. reflexivity. }
  split; discriminate.
Qed.

(** X20. What the batch check does, for any candidates: on a filter
    built by the constructor, in any state, [check_password_uniqueness]
    classifies the candidates in order, each on the filter its
    predecessor left: invalid when the candidate is [None] or a blank
    [str], duplicate when [contains] is true, unique otherwise, and a
    unique candidate is passed to [add]; the classification is
    determined, the three labels differ, the dictionary returned holds
    the assignments in order; a candidate that is [None], a [str] or an
    [int] is labelled invalid exactly when its normalized string is
    blank; and a candidate whose normalized string equals that of an
    earlier candidate that was classified unique and is not blank is
    classified duplicate. *)
Theorem batch_classification sz k (pre : list call) (ps : list pyval) :
  0 < sz -> 0 < k ->
  exists bf0 rs bf ls bf',
    BloomFilter.__init__ (PInt sz) (PInt k) = inr bf0
    /\ do_calls pre bf0 = inr (rs, bf)
    /\ batch_classified bf ps ls bf'
    /\ length ls = length ps
    /\ check_password_uniqueness ps bf
       = inr (record_all ∅ (zip (result_key <$> ps) ls), bf')
    /\ (forall ls2 bf2, batch_classified bf ps ls2 bf2 ->
                        ls2 = ls /\ bf2 = bf')
    /\ (status_invalid <> status_used
        /\ status_invalid <> status_unique
        /\ status_used <> status_unique)
    /\ (forall i p l, ps !! i = Some p -> ls !! i = Some l ->
          (l = status_invalid <-> rejected p = true)
          /\ ((forall s, p <> PObj s) ->
              (l = status_invalid <-> blank p)))
    /\ (forall i j p q, (i < j)%nat ->
          ps !! i = Some p -> ls !! i = Some status_unique -> ~ blank p ->
          ps !! j = Some q ->
          BloomFilter._normalize q = BloomFilter._normalize p ->
          ls !! j = Some status_used).
Proof.
  intros Hsz Hk.
  destruct (init_wf sz k Hsz Hk) as (bf0 & Hinit & Hwf0 & _).
  destruct (do_calls_wf pre bf0 Hwf0) as (rs & bf & Hpre & _ & Hwf & _).
  destruct (check_loop_classified ps ∅ bf Hwf) as (ls & bf' & Hb & Hrun & _).
  exists bf0, rs, bf, ls, bf'.
  split; [exact Hinit|]. split; [exact Hpre|]. split; [exact Hb|].
  split; [eapply batch_classified_length; exact Hb|].
  split; [exact Hrun|].
  split.
  { intros ls2 bf2 H2.
    destruct (batch_classified_deterministic _ _ _ _ Hb _ _ H2) as [-> ->].
    split; reflexivity. }
  split; [exact statuses_distinct|].
  split; [|exact (batch_duplicates _ _ _ _ Hb Hwf)].
  intros i p l Hp Hl.
  pose proof (batch_invalid_iff _ _ _ _ Hb i p l Hp Hl) as Hiff.
  split; [exact Hiff|]. intros Hobj. rewrite Hiff.
  split; [apply rejected_blank | apply blank_rejected, Hobj].
Qed.

Lemma batch_classification_witness :
  exists bf0 rs bf ls bf',
    BloomFilter.__init__ (PInt 1000) (PInt 3) = inr bf0
    /\ do_calls [CallAdd (PStr (u "password123"))] bf0 = inr (rs, bf)
    /\ batch_classified bf
         [PStr (u "guest"); PNone; PStr (u "guest")] ls bf'
    /\ length ls = length [PStr (u "guest"); PNone; PStr (u "guest")]
    /\ check_password_uniqueness
         [PStr (u "guest"); PNone; PStr (u "guest")] bf
       = inr (record_all ∅
                (zip (result_key <$>
                        [PStr (u "guest"); PNone; PStr (u "guest")]) ls),
              bf')
    /\ (forall ls2 bf2,
          batch_classified bf
            [PStr (u "guest"); PNone; PStr (u "guest")] ls2 bf2 ->
          ls2 = ls /\ bf2 = bf')
    /\ (status_invalid <> status_used
        /\ status_invalid <> status_unique
        /\ status_used <> status_unique)
    /\ (forall i p l,
          [PStr (u "guest"); PNone; PStr (u "guest")] !! i = Some p ->
          ls !! i = Some l ->
          (l = status_invalid <-> rejected p = true)
          /\ ((forall s, p <> PObj s) ->
              (l = status_invalid <-> blank p)))
    /\ (forall i j p q, (i < j)%nat ->
          [PStr (u "guest"); PNone; PStr (u "guest")] !! i = Some p ->
          ls !! i = Some status_unique -> ~ blank p ->
          [PStr (u "guest"); PNone; PStr (u "guest")] !! j = Some q ->
          BloomFilter._normalize q = BloomFilter._normalize p ->
          ls !! j = Some status_used).
Proof.
  apply (batch_classification 1000 3 [CallAdd (PStr (u "password123"))]
           [PStr (u "guest"); PNone; PStr (u "guest")]); lia.
Defined.

(** The example of the specification: a filter seeded with three
    passwords, a batch of four, then the second one again. *)
Example batch_example :
  match BloomFilter.__init__ (PInt 1000) (PInt 3) with
  | inl e => inl e
  | inr bf0 =>
      match
        (do_calls [CallAdd (PStr (u "password123"));
                   CallAdd (PStr (u "admin123"));
                   CallAdd (PStr (u "qwerty123"))] ;;;
         r <~ check_password_uniqueness
                [PStr (u "password123"); PStr (u "newpassword");
                 PStr (u "admin123"); PStr (u "guest")] ;;
         r1 <~ check_password_uniqueness [PStr (u "newpassword")] ;;
         ret [r !! u "password123"; r !! u "newpassword";
              r !! u "admin123"; r !! u "guest"; r1 !! u "newpassword"]) bf0
      with
      | inl e => inl e
      | inr (labels, _) => inr labels
      end
  end
  = inr [Some status_used; Some status_unique; Some status_used;
         Some status_unique; Some status_used].
Proof. vm_compute. reflexivity. Qed.

(** The claim on the key of a null candidate, as it is worded, fails:
    [None] followed by the string ["None"] leaves the key ["None"] bound
    to the label of the string. *)
Lemma null_key_counterexample :
  ~ (forall (ps : list pyval) bf r bf',
       bloom_wf bf -> PNone ∈ ps ->
       check_password_uniqueness ps bf = inr (r, bf') ->
       r !! u "None" = Some status_invalid).
Proof.
  intros H.
  destruct (init_wf 1000 3 ltac:(lia) ltac:(lia)) as (bf0 & Hinit & Hwf & _).
  assert (Hv :
    match BloomFilter.__init__ (PInt 1000) (PInt 3) with
    | inl _ => None
    | inr b =>
        match check_password_uniqueness [PNone; PStr (u "None")] b with
        | inl _ => None
        | inr (r, _) => r !! u "None"
        end
    end = Some status_unique) by (vm_compute; reflexivity).
  rewrite Hinit in Hv.
  destruct (check_password_uniqueness [PNone; PStr (u "None")] bf0)
    as [e|[r bf']] eqn:Hrun; [discriminate|].
  assert (Hin : PNone ∈ [PNone; PStr (u "None")])
    by (apply elem_of_cons; left; reflexivity).
  rewrite (H _ bf0 r bf' Hwf Hin Hrun) in Hv. discriminate.
Qed.

(** C10. The key of a null candidate, as the code has it: the loop body
    records [None] under the four-character key ["None"], which is not
    the empty string that [_normalize] gives, with the invalid label, and
    leaves the filter alone; the dictionary returned for a batch
    containing [None] binds ["None"] to the invalid label provided no
    later candidate other than [None] has that key (the string ["None"],
    or an object whose string form is ["None"], would overwrite it); any
    candidate that is not [None] is recorded under its string form. *)
Theorem null_key sz k (pre : list call) (ps1 ps2 : list pyval) :
  0 < sz -> 0 < k ->
  (forall q, q ∈ ps2 -> result_key q = u "None" -> q = PNone) ->
  exists bf0 rs bf r bf',
    BloomFilter.__init__ (PInt sz) (PInt k) = inr bf0
    /\ do_calls pre bf0 = inr (rs, bf)
    /\ (forall results b,
          check_one results PNone b
          = inr (<[u "None" := status_invalid]> results, b))
    /\ result_key PNone = [78; 111; 110; 101]%N
    /\ result_key PNone <> BloomFilter._normalize PNone
    /\ check_password_uniqueness (ps1 ++ PNone :: ps2) bf = inr (r, bf')
    /\ r !! u "None" = Some status_invalid
    /\ (forall item, item <> PNone ->
          result_key item = BloomFilter._normalize item
          /\ forall results, exists l b,
               check_one results item bf
               = inr (<[BloomFilter._normalize item := l]> results, b)).
Proof.
  intros Hsz Hk Hlater.
  destruct (init_wf sz k Hsz Hk) as (bf0 & Hinit & Hwf0 & _).
  destruct (do_calls_wf pre bf0 Hwf0) as (rs & bf & Hpre & _ & Hwf & _).
  destruct (check_loop_classified (ps1 ++ PNone :: ps2) ∅ bf Hwf)
    as (ls & bf' & _ & Hrun & _).
  set (r := record_all _ _) in Hrun. clearbody r.
  exists bf0, rs, bf, r, bf'.
  split; [exact Hinit|]. split; [exact Hpre|].
  split; [reflexivity|]. split; [reflexivity|]. split; [discriminate|].
  split; [exact Hrun|].
  split.
  { unfold check_password_uniqueness in Hrun.
    rewrite check_loop_app in Hrun. monad_unfold.
    destruct (check_loop ∅ ps1 bf) as [e|[r1 bf1]]; [discriminate|].
    simpl in Hrun. monad_unfold.
    eapply check_loop_none_kept; [exact Hrun | | exact Hlater].
    apply lookup_insert_eq. }
  intros item Hitem.
  assert (Hkey : result_key item = BloomFilter._normalize item)
    by (destruct item; [congruence | reflexivity ..]).
  split; [exact Hkey|]. intros results.
  destruct (check_one_classified results item bf Hwf) as (l & b & H & _).
  exists l, b. rewrite <- Hkey. exact H.
Qed.

Lemma null_key_witness :
  exists bf0 rs bf r bf',
    BloomFilter.__init__ (PInt 1000) (PInt 3) = inr bf0
    /\ do_calls [] bf0 = inr (rs, bf)
    /\ (forall results b,
          check_one results PNone b
          = inr (<[u "None" := status_invalid]> results, b))
    /\ result_key PNone = [78; 111; 110; 101]%N
    /\ result_key PNone <> BloomFilter._normalize PNone
    /\ check_password_uniqueness
         ([PStr (u "admin123")] ++ PNone :: [PInt (-42); PNone]) bf
       = inr (r, bf')
    /\ r !! u "None" = Some status_invalid
    /\ (forall item, item <> PNone ->
          result_key item = BloomFilter._normalize item
          /\ forall results, exists l b,
               check_one results item bf
               = inr (<[BloomFilter._normalize item := l]> results, b)).
Proof.
  apply (null_key 1000 3 [] [PStr (u "admin123")] [PInt (-42); PNone]).
  - lia.
  - lia.
  - intros q Hq Hkey.
    apply elem_of_cons in Hq as [->|Hq]; [vm_compute in Hkey; discriminate|].
    apply list_elem_of_singleton in Hq. exact Hq.
Defined.

(** ** HyperLogLog: hashing and registers *)

Lemma int_from_bytes_big_bound bs : forall acc,
  0 <= acc -> Forall is_byte bs ->
  0 <= fold_left (fun a b => a * 256 + b) bs acc
    < (acc + 1) * 256 ^ Z.of_nat (length bs).
Proof.
  induction bs as [|b bs IH]; intros acc Hacc Hall.
  - simpl. lia.
  - apply Forall_cons in Hall as [Hb Hall]. unfold is_byte in Hb.
    cbn [fold_left length]. rewrite Nat2Z.inj_succ, Z.pow_succ_r by lia.
    destruct (IH (acc * 256 + b) ltac:(lia) Hall) as [Hlo Hhi].
    split; [exact Hlo|].
    eapply Z.lt_le_trans; [exact Hhi|].
    assert (0 < 256 ^ Z.of_nat (length bs)) by (apply Z.pow_pos_nonneg; lia).
    nia.
Qed.

Lemma digest_bytes msg : Forall is_byte (Sha256.digest msg).
Proof.
  unfold Sha256.digest. cbv zeta.
  generalize (Sha256.process (length (Sha256.be_words (Sha256.pad msg)))
                (Sha256.be_words (Sha256.pad msg)) Sha256.H0).
  intros hs. induction hs as [|w hs IH]; simpl; [constructor|].
  unfold is_byte.
  repeat (constructor; [apply Z.mod_pos_bound; lia|]). exact IH.
Qed.

Lemma hash64_range s : 0 <= HyperLogLog._hash64 s < 2 ^ 64.
Proof.
  unfold HyperLogLog._hash64, int_from_bytes_big.
  pose proof (digest_bytes (utf8_encode_replace s)) as Hall.
  apply Forall_take with (n := 8%nat) in Hall.
  destruct (int_from_bytes_big_bound _ 0 ltac:(lia) Hall) as [Hlo Hhi].
  split; [exact Hlo|].
  eapply Z.lt_le_trans; [exact Hhi|].
  rewrite Z.mul_1_l. change (2 ^ 64) with (256 ^ 8).
  apply Z.pow_le_mono_r; [lia|].
  rewrite length_take. lia.
Qed.

Lemma bit_length_pos w : 0 < w -> bit_length w = Z.log2 w + 1.
Proof.
  intros H. unfold bit_length.
  destruct (Z.eqb_spec w 0); [lia|]. rewrite Z.abs_eq by lia. reflexivity.
Qed.

Lemma leading_zeros_spec n : forall w,
  0 <= w < 2 ^ Z.of_nat n ->
  leading_zeros n w = Z.of_nat n - bit_length w.
Proof.
  induction n as [|n IH]; intros w Hw.
  - simpl in *. assert (w = 0) by lia. subst w. reflexivity.
  - rewrite Nat2Z.inj_succ, Z.pow_succ_r in Hw by lia.
    cbn [leading_zeros]. rewrite Nat2Z.inj_succ.
    destruct (Z.lt_ge_cases w (2 ^ Z.of_nat n)) as [Hlt|Hge].
    + assert (Hbit : Z.testbit w (Z.of_nat n) = false).
      { destruct (Z.eq_dec w 0) as [->|Hne]; [apply Z.bits_0|].
        apply Z.bits_above_log2; [lia|].
        apply Z.log2_lt_pow2; lia. }
      rewrite Hbit, IH by lia. lia.
    + assert (Hlog : Z.log2 w = Z.of_nat n)
        by (apply Z.log2_unique; [lia|]; rewrite Z.pow_succ_r by lia; lia).
      assert (Hpos : 0 < w)
        by (pose proof (Z.pow_pos_nonneg 2 (Z.of_nat n)); lia).
      assert (Hbit : Z.testbit w (Z.of_nat n) = true)
        by (rewrite <- Hlog; apply Z.bit_log2; exact Hpos).
      rewrite Hbit, bit_length_pos, Hlog by exact Hpos. lia.
Qed.

Lemma leading_zeros_0 n : leading_zeros n 0 = Z.of_nat n.
Proof.
  rewrite leading_zeros_spec.
  - unfold bit_length. simpl. lia.
  - split; [lia | apply Z.pow_pos_nonneg; lia].
Qed.

(** The shifted word of [add] and the suffix it holds. *)
Lemma shifted_suffix x p :
  0 <= p <= 64 ->
  Z.land (Z.shiftl x p) (Z.shiftl 1 64 - 1) = (x mod 2 ^ (64 - p)) * 2 ^ p.
Proof.
  intros Hp. change (Z.shiftl 1 64 - 1) with (Z.ones 64).
  rewrite Z.land_ones, Z.shiftl_mul_pow2 by lia.
  replace (2 ^ 64) with (2 ^ (64 - p) * 2 ^ p)
    by (rewrite <- Z.pow_add_r by lia; f_equal; lia).
  apply Z.mul_mod_distr_r.
  - pose proof (Z.pow_pos_nonneg 2 (64 - p)). lia.
  - pose proof (Z.pow_pos_nonneg 2 p). lia.
Qed.

Lemma rho_spec x p :
  0 <= p <= 64 ->
  let w := Z.land (Z.shiftl x p) (Z.shiftl 1 64 - 1) in
  let suffix := x mod 2 ^ (64 - p) in
  (if w =? 0 then 64 - p + 1 else HyperLogLog._clz64 w + 1)
  = 1 + leading_zeros (Z.to_nat (64 - p)) suffix
  /\ (suffix = 0 -> w = 0)
  /\ 1 <= 1 + leading_zeros (Z.to_nat (64 - p)) suffix <= 64 - p + 1.
Proof.
  intros Hp w suffix. subst w. rewrite shifted_suffix by exact Hp.
  fold suffix.
  assert (Hs : 0 <= suffix < 2 ^ (64 - p))
    by (apply Z.mod_pos_bound, Z.pow_pos_nonneg; lia).
  assert (Hpow : 0 < 2 ^ p) by (apply Z.pow_pos_nonneg; lia).
  assert (Hlz : leading_zeros (Z.to_nat (64 - p)) suffix
                = 64 - p - bit_length suffix).
  { rewrite leading_zeros_spec by (rewrite Z2Nat.id by lia; exact Hs).
    rewrite Z2Nat.id by lia. reflexivity. }
  destruct (Z.eq_dec suffix 0) as [E|E].
  - rewrite E in *. simpl (0 * _ =? 0). rewrite Hlz.
    unfold bit_length. simpl. split; [lia|]. split; [reflexivity | lia].
  - assert (Hpos : 0 < suffix) by lia.
    destruct (Z.eqb_spec (suffix * 2 ^ p) 0) as [E0|_]; [nia|].
    unfold HyperLogLog._clz64.
    rewrite Hlz, (bit_length_pos suffix Hpos).
    rewrite bit_length_pos by nia.
    rewrite Z.log2_mul_pow2 by lia.
    assert (0 <= Z.log2 suffix < 64 - p).
    { split; [apply Z.log2_nonneg|]. apply Z.log2_lt_pow2; lia. }
    split; [lia|]. split; [contradiction | lia].
Qed.

Lemma hll_init_wf p :
  4 <= p <= 18 ->
  exists h,
    HyperLogLog.__init__ (PInt p) = inr h
    /\ hll_wf h
    /\ HyperLogLog.p h = p
    /\ HyperLogLog.registers h = replicate (Z.to_nat (2 ^ p)) 0
    /\ HyperLogLog.m h = 2 ^ p
    /\ HyperLogLog.alpha h
       = (if (2 ^ p =? 16)%Z then 0.673
          else if (2 ^ p =? 32)%Z then 0.697
          else if (2 ^ p =? 64)%Z then 0.709
          else 0.7213 / (1.0 + 1.079 / float_of_int (2 ^ p)%Z))%float.
Proof.
  intros Hp. unfold HyperLogLog.__init__, bytearray.
  destruct (Z.ltb_spec p 4); [lia|]. destruct (Z.gtb_spec p 18); [lia|].
  simpl. rewrite Z.shiftl_1_l.
  assert (0 < 2 ^ p) by (apply Z.pow_pos_nonneg; lia).
  destruct (Z.ltb_spec (2 ^ p) 0); [lia|].
  eexists. split; [reflexivity|]. split; [|repeat split].
  constructor; simpl; [lia | reflexivity |].
  rewrite length_replicate. lia.
Qed.

(** What [add] does on a well-formed counter. *)
Lemma hll_add_wf h item :
  hll_wf h ->
  let x := HyperLogLog._hash64 item in
  let j := Z.shiftr x (64 - HyperLogLog.p h) in
  let suffix := x mod 2 ^ (64 - HyperLogLog.p h) in
  let rho := 1 + leading_zeros (Z.to_nat (64 - HyperLogLog.p h)) suffix in
  exists old,
    HyperLogLog.registers h !! Z.to_nat j = Some old
    /\ 0 <= j < HyperLogLog.m h
    /\ 1 <= rho <= 64 - HyperLogLog.p h + 1
    /\ HyperLogLog.add item h
       = inr (tt, HyperLogLog.set_registers
                    (<[Z.to_nat j := Z.max old rho]> (HyperLogLog.registers h))
                    h).
Proof.
  intros [Hp Hm Hlen] x j suffix rho.
  pose proof (hash64_range item) as Hx. fold x in Hx.
  assert (Hj : 0 <= j < HyperLogLog.m h).
  { subst j. rewrite Z.shiftr_div_pow2, Hm by lia.
    assert (0 < 2 ^ (64 - HyperLogLog.p h)) by (apply Z.pow_pos_nonneg; lia).
    split; [apply Z.div_pos; lia|].
    apply Z.div_lt_upper_bound; [lia|].
    rewrite <- Z.pow_add_r by lia.
    replace (64 - HyperLogLog.p h + HyperLogLog.p h) with 64 by lia. lia. }
  destruct (rho_spec x (HyperLogLog.p h) ltac:(lia)) as (Hrho & _ & Hbound).
  fold suffix in Hrho, Hbound. fold rho in Hrho, Hbound.
  assert (Hjl : 0 <= j < Z.of_nat (length (HyperLogLog.registers h))) by lia.
  destruct (bytearray_get_in _ _ Hjl) as (old & Hold & Hget).
  exists old. split; [exact Hold|]. split; [exact Hj|]. split; [exact Hbound|].
  unfold HyperLogLog.add. fold x. monad_unfold.
  unfold py_shiftr, py_shiftl.
  destruct (Z.ltb_spec (64 - HyperLogLog.p h) 0); [lia|].
  destruct (Z.ltb_spec (HyperLogLog.p h) 0); [lia|].
  fold j.
  revert Hrho.
  destruct (Z.land (Z.shiftl x (HyperLogLog.p h)) (Z.shiftl 1 64 - 1) =? 0);
    intros Hrho; cbv beta; rewrite Hrho, Hget;
    (destruct (Z.gtb_spec rho old) as [Hgt|Hle];
     [ rewrite bytearray_set_in by lia;
       rewrite Z.max_r by lia; reflexivity
     | rewrite Z.max_l by lia;
       rewrite list_insert_id by exact Hold;
       destruct h; reflexivity ]).
Qed.

Lemma hll_add_keeps_wf h item h' :
  hll_wf h -> HyperLogLog.add item h = inr (tt, h') -> hll_wf h'.
Proof.
  intros Hwf Hadd.
  destruct (hll_add_wf h item Hwf) as (old & _ & _ & _ & Heq).
  rewrite Heq in Hadd. injection Hadd as <-.
  destruct Hwf as [Hp Hm Hlen]. constructor; simpl; try assumption.
  rewrite length_insert. exact Hlen.
Qed.

Lemma hll_adds_wf items : forall h,
  hll_wf h ->
  exists h',
    for_ items HyperLogLog.add h = inr (tt, h')
    /\ hll_wf h' /\ HyperLogLog.p h' = HyperLogLog.p h.
Proof.
  induction items as [|item items IH]; intros h Hwf.
  - exists h. split; [reflexivity|]. split; [exact Hwf | reflexivity].
  - destruct (hll_add_wf h item Hwf) as (old & _ & _ & _ & Hadd).
    pose proof (hll_add_keeps_wf _ _ _ Hwf Hadd) as Hwf1.
    destruct (IH _ Hwf1) as (h' & Hrun & Hwf' & Hp).
    exists h'. split; [|split; [exact Hwf' | exact Hp]].
    simpl. monad_unfold. rewrite Hadd. exact Hrun.
Qed.

(** Adding an item a second time changes nothing. *)
Lemma hll_add_idempotent h item h1 :
  hll_wf h -> HyperLogLog.add item h = inr (tt, h1) ->
  HyperLogLog.add item h1 = inr (tt, h1).
Proof.
  intros Hwf Hadd.
  pose proof (hll_add_keeps_wf _ _ _ Hwf Hadd) as Hwf1.
  destruct (hll_add_wf h item Hwf) as (old & Hold & _ & _ & Heq).
  rewrite Heq in Hadd. injection Hadd as <-.
  destruct (hll_add_wf _ item Hwf1) as (old1 & Hold1 & _ & _ & Heq1).
  rewrite Heq1. simpl in Hold1 |- *.
  rewrite list_lookup_insert_eq in Hold1 by (eapply lookup_lt_Some; exact Hold).
  injection Hold1 as <-.
  rewrite list_insert_insert_eq.
  rewrite (Z.max_l (Z.max old _)) by lia. reflexivity.
Qed.

Lemma hll_add_repeat h item h1 n :
  hll_wf h -> HyperLogLog.add item h = inr (tt, h1) ->
  for_ (replicate n item) HyperLogLog.add h1 = inr (tt, h1).
Proof.
  intros Hwf Hadd. induction n as [|n IH]; [reflexivity|].
  simpl. monad_unfold.
  rewrite (hll_add_idempotent _ _ _ Hwf Hadd). exact IH.
Qed.

(** C4. [add] on a counter built by the constructor, in any state: with
    [x] the 64-bit hash of the item, the bucket [j] is the top [p] bits
    of [x], the suffix [w] the remaining [64 - p] bits, [rho] is one more
    than the number of leading zero bits of [w] as a [(64 - p)]-bit
    value, which is [64 - p + 1] when [w] is zero; register [j] becomes
    the larger of its value and [rho], and nothing else changes. *)
Theorem add_updates_register p (items : list str) (item : str) :
  4 <= p <= 18 ->
  exists h0 h old h',
    HyperLogLog.__init__ (PInt p) = inr h0
    /\ for_ items HyperLogLog.add h0 = inr (tt, h)
    /\ (let x := HyperLogLog._hash64 item in
        let j := x / 2 ^ (64 - p) in
        let w := x mod 2 ^ (64 - p) in
        let rho := 1 + leading_zeros (Z.to_nat (64 - p)) w in
        0 <= x < 2 ^ 64
        /\ x = j * 2 ^ (64 - p) + w
        /\ 0 <= j < 2 ^ p
        /\ 0 <= w < 2 ^ (64 - p)
        /\ (w = 0 -> rho = 64 - p + 1)
        /\ HyperLogLog.registers h !! Z.to_nat j = Some old
        /\ HyperLogLog.add item h = inr (tt, h')
        /\ HyperLogLog.registers h'
           = <[Z.to_nat j := Z.max old rho]> (HyperLogLog.registers h)
        /\ HyperLogLog.registers h' !! Z.to_nat j = Some (Z.max old rho)
        /\ (forall i, i <> Z.to_nat j ->
              HyperLogLog.registers h' !! i = HyperLogLog.registers h !! i)
        /\ HyperLogLog.p h' = HyperLogLog.p h
        /\ HyperLogLog.m h' = HyperLogLog.m h
        /\ HyperLogLog.alpha h' = HyperLogLog.alpha h).
Proof.
  intros Hp.
  destruct (hll_init_wf p Hp) as (h0 & Hinit & Hwf0 & Hp0 & _).
  destruct (hll_adds_wf items h0 Hwf0) as (h & Hrun & Hwf & Hph).
  assert (Hpp : HyperLogLog.p h = p) by congruence.
  destruct (hll_add_wf h item Hwf) as (old & Hold & Hj & Hrho & Hadd).
  rewrite Hpp in Hold, Hj, Hrho, Hadd.
  rewrite Z.shiftr_div_pow2 in Hold, Hj, Hadd by lia.
  rewrite (wf_m h Hwf), Hpp in Hj.
  eexists h0, h, old, _.
  split; [exact Hinit|]. split; [exact Hrun|]. cbv zeta.
  assert (Hpow : 0 < 2 ^ (64 - p)) by (apply Z.pow_pos_nonneg; lia).
  split; [apply hash64_range|].
  split; [rewrite Z.mul_comm; apply Z.div_mod; lia|].
  split; [exact Hj|].
  split; [apply Z.mod_pos_bound; exact Hpow|].
  split.
  { intros ->. rewrite leading_zeros_0, Z2Nat.id by lia. lia. }
  split; [exact Hold|]. split; [exact Hadd|]. simpl.
  split; [reflexivity|].
  split; [apply list_lookup_insert_eq; eapply lookup_lt_Some; exact Hold|].
  split; [intros i Hi; apply list_lookup_insert_ne; congruence|].
  repeat split.
Qed.

Lemma add_updates_register_witness :
  exists h0 h old h',
    HyperLogLog.__init__ (PInt 4) = inr h0
    /\ for_ [u "10.0.0.1"] HyperLogLog.add h0 = inr (tt, h)
    /\ (let x := HyperLogLog._hash64 (u "abc") in
        let j := x / 2 ^ (64 - 4) in
        let w := x mod 2 ^ (64 - 4) in
        let rho := 1 + leading_zeros (Z.to_nat (64 - 4)) w in
        0 <= x < 2 ^ 64
        /\ x = j * 2 ^ (64 - 4) + w
        /\ 0 <= j < 2 ^ 4
        /\ 0 <= w < 2 ^ (64 - 4)
        /\ (w = 0 -> rho = 64 - 4 + 1)
        /\ HyperLogLog.registers h !! Z.to_nat j = Some old
        /\ HyperLogLog.add (u "abc") h = inr (tt, h')
        /\ HyperLogLog.registers h'
           = <[Z.to_nat j := Z.max old rho]> (HyperLogLog.registers h)
        /\ HyperLogLog.registers h' !! Z.to_nat j = Some (Z.max old rho)
        /\ (forall i, i <> Z.to_nat j ->
              HyperLogLog.registers h' !! i = HyperLogLog.registers h !! i)
        /\ HyperLogLog.p h' = HyperLogLog.p h
        /\ HyperLogLog.m h' = HyperLogLog.m h
        /\ HyperLogLog.alpha h' = HyperLogLog.alpha h).
Proof.
  apply (add_updates_register 4 [u "10.0.0.1"] (u "abc")). lia.
Defined.

(** On the hashes of two addresses: buckets 15 and 11, ranks 2 and 1. *)
Example add_two_addresses :
  (for_ [u "10.0.0.1"; u "abc"] HyperLogLog.add)
    (HyperLogLog.mk 4 16 (replicate 16 0) 0.673%float)
  = inr (tt, HyperLogLog.mk 4 16
               [0; 0; 0; 0; 0; 0; 0; 0; 0; 0; 0; 1; 0; 0; 0; 2]
               0.673%float).
Proof. vm_compute. reflexivity. Qed.

(** ** HyperLogLog: the estimate *)

Lemma zero_register_count_cons r regs :
  zero_register_count (r :: regs)
  = (if r =? 0 then 1 else 0) + zero_register_count regs.
Proof.
  unfold zero_register_count. rewrite filter_cons.
  destruct (decide (r = 0)) as [->|E].
  - simpl. lia.
  - destruct (Z.eqb_spec r 0); [contradiction | lia].
Qed.

Lemma zero_register_count_nonneg regs : 0 <= zero_register_count regs.
Proof. unfold zero_register_count. lia. Qed.

(** The loop of [count] computes the sum and the number of zero
    registers. *)
Lemma count_loop_fused regs : forall s z,
  fold_left HyperLogLog.count_step regs (s, z)
  = (fold_left (fun acc r => (acc + pow2_neg r)%float) regs s,
     z + zero_register_count regs).
Proof.
  induction regs as [|r regs IH]; intros s z.
  - simpl. f_equal. unfold zero_register_count. simpl. lia.
  - cbn [fold_left]. unfold HyperLogLog.count_step at 2.
    cbn [fst snd]. rewrite zero_register_count_cons.
    destruct (r =? 0); rewrite IH; f_equal; lia.
Qed.

Lemma some_register_zero regs :
  (zero_register_count regs >? 0) = existsb (fun r => r =? 0) regs.
Proof.
  induction regs as [|r regs IH]; [reflexivity|].
  rewrite zero_register_count_cons. simpl.
  pose proof (zero_register_count_nonneg regs) as Hn.
  destruct (r =? 0); simpl.
  - destruct (Z.gtb_spec (1 + zero_register_count regs) 0); [reflexivity | lia].
  - exact IH.
Qed.

Lemma large_range_threshold :
  (1.0 / 30.0 * two_pow_64)%float = (two_pow_64 / 30.0)%float.
Proof. vm_compute. reflexivity. Qed.

Section CountProperties.

Variable libm_log : float -> float.

(** C5. [count] leaves the counter as it was and returns the estimate
    of the formula: the raw estimate [alpha * m^2 / sum 2^(-register)],
    replaced by [m * ln (m / zeros)] when it is at most [2.5 * m] and some
    register is zero, then replaced by [-(2^64) * ln (1 - E / 2^64)] when
    above [2^64 / 30]; where the formula divides by zero or takes the
    logarithm of a non-positive number, [count] raises the same error. *)
Theorem count_is_estimate h :
  HyperLogLog.count libm_log h
  = match estimate libm_log h with
    | inl e => inl e
    | inr v => inr (v, h)
    end.
Proof.
  unfold HyperLogLog.count, estimate. monad_unfold. cbv zeta.
  rewrite count_loop_fused. cbn [fst snd]. rewrite Z.add_0_l.
  rewrite some_register_zero, large_range_threshold.
  fold (inverse_power_sum (HyperLogLog.registers h)).
  destruct (float_div _ _) as [e|raw]; [reflexivity|].
  destruct (_ && _).
  - destruct (int_truediv _ _) as [e|q]; [reflexivity|].
    destruct (HyperLogLog.math_log libm_log q) as [e|l]; [reflexivity|].
    destruct (_ <? _)%float; [|reflexivity].
    destruct (HyperLogLog.math_log libm_log _) as [e|l2]; reflexivity.
  - destruct (_ <? _)%float; [|reflexivity].
    destruct (HyperLogLog.math_log libm_log _) as [e|l2]; reflexivity.
Qed.

End CountProperties.

(** The sums of [count] over the registers of a new counter. *)
Lemma fresh_sums p :
  4 <= p <= 18 ->
  inverse_power_sum (replicate (Z.to_nat (2 ^ p)) 0) = float_of_int (2 ^ p)
  /\ zero_register_count (replicate (Z.to_nat (2 ^ p)) 0) = 2 ^ p
  /\ existsb (fun r => r =? 0) (replicate (Z.to_nat (2 ^ p)) 0) = true.
Proof.
  intros Hp.
  assert (Hcases : p = 4 \/ p = 5 \/ p = 6 \/ p = 7 \/ p = 8 \/ p = 9
                   \/ p = 10 \/ p = 11 \/ p = 12 \/ p = 13 \/ p = 14
                   \/ p = 15 \/ p = 16 \/ p = 17 \/ p = 18) by lia.
  repeat (destruct Hcases as [-> | Hcases]);
    [ .. | subst p ]; vm_compute; repeat split.
Qed.

Section FreshCounter.

Variable libm_log : float -> float.
Hypothesis libm_log_one : libm_log 1%float = 0%float.

Lemma fresh_count p h :
  4 <= p <= 18 ->
  HyperLogLog.__init__ (PInt p) = inr h ->
  HyperLogLog.count libm_log h = inr (0%float, h).
Proof.
  intros Hp Hinit.
  destruct (hll_init_wf p Hp) as (h' & Hinit' & _ & Hhp & Hregs & Hm & Ha).
  assert (h' = h) by congruence. subst h'.
  destruct (fresh_sums p Hp) as (Hsum & Hzeros & _).
  destruct h as [hp hm hregs ha]. simpl in Hhp, Hregs, Hm, Ha.
  subst hp hm hregs ha.
  unfold HyperLogLog.count. monad_unfold. cbv zeta.
  cbn [HyperLogLog.registers HyperLogLog.m HyperLogLog.alpha].
  rewrite count_loop_fused. cbn [fst snd]. rewrite Z.add_0_l.
  fold (inverse_power_sum (replicate (Z.to_nat (2 ^ p)) 0)).
  rewrite Hsum, Hzeros.
  clear Hsum Hzeros Hinit Hinit'.
  generalize (replicate (Z.to_nat (2 ^ p)) 0). intros regs.
  assert (Hcases : p = 4 \/ p = 5 \/ p = 6 \/ p = 7 \/ p = 8 \/ p = 9
                   \/ p = 10 \/ p = 11 \/ p = 12 \/ p = 13 \/ p = 14
                   \/ p = 15 \/ p = 16 \/ p = 17 \/ p = 18) by lia.
  repeat (destruct Hcases as [-> | Hcases]);
    [ .. | subst p ];
    vm_compute; rewrite libm_log_one; vm_compute; reflexivity.
Qed.

(** C6. Exactness at zero and one: for [p] in [[4, 18]] a new counter
    estimates [0.0]; and once an item has been added, in whatever state,
    adding it again any number of times leaves the counter, hence
    [count], as it was.  The estimate of the new counter is taken with a
    logarithm that is zero at one. *)
Theorem exact_at_zero_and_one p (items : list str) (item : str) (n : nat) :
  4 <= p <= 18 ->
  exists h0 h h1,
    HyperLogLog.__init__ (PInt p) = inr h0
    /\ HyperLogLog.count libm_log h0 = inr (0%float, h0)
    /\ for_ items HyperLogLog.add h0 = inr (tt, h)
    /\ HyperLogLog.add item h = inr (tt, h1)
    /\ for_ (replicate n item) HyperLogLog.add h1 = inr (tt, h1)
    /\ (for_ (replicate n item) HyperLogLog.add ;;;
        HyperLogLog.count libm_log) h1
       = HyperLogLog.count libm_log h1.
Proof.
  intros Hp.
  destruct (hll_init_wf p Hp) as (h0 & Hinit & Hwf0 & _).
  destruct (hll_adds_wf items h0 Hwf0) as (h & Hrun & Hwf & _).
  destruct (hll_add_wf h item Hwf) as (old & _ & _ & _ & Hadd).
  pose proof (hll_add_repeat _ _ _ n Hwf Hadd) as Hrep.
  eexists h0, h, _.
  split; [exact Hinit|].
  split; [exact (fresh_count p h0 Hp Hinit)|].
  split; [exact Hrun|]. split; [exact Hadd|]. split; [exact Hrep|].
  monad_unfold. rewrite Hrep. reflexivity.
Qed.

End FreshCounter.

Lemma exact_at_zero_and_one_witness :
  exists h0 h h1,
    HyperLogLog.__init__ (PInt 14) = inr h0
    /\ HyperLogLog.count log_series h0 = inr (0%float, h0)
    /\ for_ [u "198.51.100.7"] HyperLogLog.add h0 = inr (tt, h)
    /\ HyperLogLog.add (u "203.0.113.5") h = inr (tt, h1)
    /\ for_ (replicate 3 (u "203.0.113.5")) HyperLogLog.add h1 = inr (tt, h1)
    /\ (for_ (replicate 3 (u "203.0.113.5")) HyperLogLog.add ;;;
        HyperLogLog.count log_series) h1
       = HyperLogLog.count log_series h1.
Proof.
  apply (exact_at_zero_and_one log_series).
  - vm_compute. reflexivity.
  - lia.
Defined.

(** A small stream, counted with the series logarithm: three distinct
    addresses among five give the linear-counting estimate. *)
Example count_small_stream :
  hll_unique_count_stream log_series
    [u "10.0.0.1"; u "10.0.0.2"; u "10.0.0.1"; u "10.0.0.3"; u "10.0.0.2"]
    (PInt 4)
  = hll_unique_count_stream log_series
      [u "10.0.0.1"; u "10.0.0.2"; u "10.0.0.3"] (PInt 4).
Proof. vm_compute. reflexivity. Qed.

(** ** Client address extraction *)

Section ExtractionProperties.

Variable ip_address : str -> bool.

(** [ipaddress.ip_address("")] raises. *)
Hypothesis ip_address_empty : ip_address [] = false.

Lemma validate_ip_stripped s :
  _validate_ip ip_address (strip s)
  = if ip_address (strip s) then Some (strip s) else None.
Proof.
  unfold _validate_ip. rewrite strip_idemp.
  destruct (strip s) as [|c t] eqn:E; simpl.
  - rewrite ip_address_empty. reflexivity.
  - reflexivity.
Qed.

Lemma validate_ip_raw s :
  _validate_ip ip_address s
  = if ip_address (strip s) then Some (strip s) else None.
Proof.
  unfold _validate_ip.
  destruct (strip s) as [|c t] eqn:E; simpl.
  - rewrite ip_address_empty. reflexivity.
  - reflexivity.
Qed.

Lemma truthy_valid s :
  (if truthy (if ip_address (strip s) then Some (strip s) else None)
   then (if ip_address (strip s) then Some (strip s) else None)
   else None)
  = if ip_address (strip s) then Some (strip s) else None.
Proof.
  destruct (ip_address (strip s)) eqn:E; [|reflexivity].
  destruct (strip s) as [|c t]; [congruence | reflexivity].
Qed.

Lemma from_forwarded_rule x :
  from_forwarded ip_address (JStr x)
  = if negb (is_empty x) && ip_address (strip (split_first comma x))
    then Some (strip (split_first comma x))
    else None.
Proof.
  unfold from_forwarded. cbv zeta.
  rewrite validate_ip_stripped, truthy_valid.
  destruct (strip x) as [|c t] eqn:Ex; simpl.
  - rewrite (strip_split_first_blank _ _ Ex), ip_address_empty.
    rewrite andb_false_r. reflexivity.
  - assert (is_empty x = false) as ->.
    { destruct x; [discriminate | reflexivity]. }
    reflexivity.
Qed.

Lemma from_remote_rule r :
  from_remote ip_address (JStr r)
  = if ip_address (strip r) then Some (strip r) else None.
Proof.
  unfold from_remote. cbv zeta.
  rewrite validate_ip_raw, truthy_valid.
  destruct (strip r) as [|c t] eqn:Er; simpl; [|reflexivity].
  rewrite ip_address_empty. reflexivity.
Qed.

Lemma from_remote_is_rule obj :
  match from_remote ip_address (get_or_empty obj remote_addr) with
  | Some ip => Some ip
  | None => None
  end = remote_rule ip_address obj.
Proof.
  unfold remote_rule, get_or_empty.
  destruct (obj !! remote_addr) as [[| b | n | r]|]; try reflexivity.
  - rewrite from_remote_rule. destruct (ip_address (strip r)); reflexivity.
Qed.

Lemma extract_is_rule obj :
  _extract_client_ip ip_address obj = extraction_rule ip_address obj.
Proof.
  unfold _extract_client_ip, extraction_rule. cbv zeta.
  rewrite from_remote_is_rule. unfold get_or_empty.
  destruct (obj !! http_x_forwarded_for) as [[| b | n | x]|]; try reflexivity.
  rewrite from_forwarded_rule.
  destruct (negb (is_empty x) && ip_address (strip (split_first comma x)));
    reflexivity.
Qed.

Lemma remote_rule_valid obj ip :
  remote_rule ip_address obj = Some ip -> ip_address ip = true.
Proof.
  unfold remote_rule.
  destruct (obj !! remote_addr) as [[| b | n | r]|]; try discriminate.
  destruct (ip_address (strip r)) eqn:E; [|discriminate].
  intros [= <-]. exact E.
Qed.

Lemma extraction_rule_valid obj ip :
  extraction_rule ip_address obj = Some ip -> ip_address ip = true.
Proof.
  unfold extraction_rule. cbv zeta.
  destruct (obj !! http_x_forwarded_for) as [[| b | n | x]|];
    try apply remote_rule_valid.
  destruct (negb (is_empty x) && ip_address (strip (split_first comma x)))
    eqn:E; [|apply remote_rule_valid].
  apply andb_true_iff in E as [_ E]. intros [= <-]. exact E.
Qed.

Lemma extract_nonempty obj ip :
  _extract_client_ip ip_address obj = Some ip -> ip <> [].
Proof.
  rewrite extract_is_rule. intros H%extraction_rule_valid ->. congruence.
Qed.

(** C8. Extraction priority: the address a record contributes is the
    trimmed first comma-separated token of its forwarded-for field when
    that field is a non-empty string and the token is a valid address;
    otherwise the trimmed value of its remote-address field when that is
    a string and a valid address; otherwise the record contributes
    nothing to the sequence produced, and a contributing record
    contributes exactly its address, in order. *)
Theorem extraction_priority (obj : gmap str jvalue)
    (before after : list (gmap str jvalue)) :
  _extract_client_ip ip_address obj = extraction_rule ip_address obj
  /\ iter_ips_from_log ip_address (before ++ obj :: after)
     = iter_ips_from_log ip_address before
       ++ match extraction_rule ip_address obj with
          | Some ip => [ip]
          | None => []
          end
       ++ iter_ips_from_log ip_address after.
Proof.
  split; [apply extract_is_rule|].
  induction before as [|o before IH]; cbn [app iter_ips_from_log].
  - rewrite <- extract_is_rule.
    destruct (_extract_client_ip ip_address obj) as [ip|] eqn:E; [|reflexivity].
    apply extract_nonempty in E. destruct ip; [congruence | reflexivity].
  - rewrite IH.
    destruct (_extract_client_ip ip_address o) as [ip|]; [|reflexivity].
    destruct (truthy (Some ip)); reflexivity.
Qed.

End ExtractionProperties.

Lemma extraction_priority_witness :
  _extract_client_ip dotted_quad
    {[ http_x_forwarded_for := JStr (u "203.0.113.5, 10.0.0.1");
       remote_addr := JStr (u "10.0.0.2") ]}
  = extraction_rule dotted_quad
      {[ http_x_forwarded_for := JStr (u "203.0.113.5, 10.0.0.1");
         remote_addr := JStr (u "10.0.0.2") ]}
  /\ iter_ips_from_log dotted_quad
       ([ {[ remote_addr := JStr (u " 198.51.100.7 ") ]} ]
          ++ {[ http_x_forwarded_for := JStr (u "203.0.113.5, 10.0.0.1");
                remote_addr := JStr (u "10.0.0.2") ]}
          :: [ {[ http_x_forwarded_for := JStr (u "not-an-ip") ]} ])
     = iter_ips_from_log dotted_quad
         [ {[ remote_addr := JStr (u " 198.51.100.7 ") ]} ]
       ++ match extraction_rule dotted_quad
                  {[ http_x_forwarded_for :=
                       JStr (u "203.0.113.5, 10.0.0.1");
                     remote_addr := JStr (u "10.0.0.2") ]} with
          | Some ip => [ip]
          | None => []
          end
       ++ iter_ips_from_log dotted_quad
            [ {[ http_x_forwarded_for := JStr (u "not-an-ip") ]} ].
Proof.
  apply (extraction_priority dotted_quad).
  vm_compute. reflexivity.
Defined.

(** The examples of the specification. *)
Example extract_forwarded :
  _extract_client_ip dotted_quad
    {[ http_x_forwarded_for := JStr (u "203.0.113.5, 10.0.0.1");
       remote_addr := JStr (u "10.0.0.2") ]}
  = Some (u "203.0.113.5").
Proof. vm_compute. reflexivity. Qed.

Example extract_fallback :
  _extract_client_ip dotted_quad
    {[ http_x_forwarded_for := JStr (u "not-an-ip");
       remote_addr := JStr (u "198.51.100.7") ]}
  = Some (u "198.51.100.7").
Proof. vm_compute. reflexivity. Qed.

Example extract_nothing :
  _extract_client_ip dotted_quad
    {[ http_x_forwarded_for := JStr (u "not-an-ip");
       remote_addr := JNum 7 ]}
  = None.
Proof. vm_compute. reflexivity. Qed.

(** * Further properties of the code *)

(** ** Bits of the filter *)

Lemma set_bit_eq bf idx :
  bloom_wf bf -> 0 <= idx < BloomFilter.size bf ->
  exists old,
    BloomFilter._bits bf !! Z.to_nat (Z.shiftr idx 3) = Some old
    /\ 0 <= old < 256
    /\ BloomFilter._set_bit idx bf
       = inr (tt, BloomFilter.set_bits
                    (<[Z.to_nat (Z.shiftr idx 3)
                       := Z.lor old (Z.shiftl 1 (Z.land idx 7))]>
                       (BloomFilter._bits bf)) bf).
Proof.
  intros Hwf Hi.
  pose proof (index_in_bounds bf idx Hwf Hi) as Hb.
  destruct (bytearray_get_in _ _ Hb) as (old & Hold & Hget).
  assert (Hbyte : 0 <= old < 256).
  { destruct Hwf as [_ _ _ Hall].
    rewrite Forall_lookup in Hall. exact (Hall _ _ Hold). }
  assert (Hn : 0 <= Z.land idx 7 < 8)
    by (rewrite land_7; apply Z.mod_pos_bound; lia).
  pose proof (lor_bit_byte old _ Hbyte Hn) as Hnew.
  exists old. split; [exact Hold|]. split; [exact Hbyte|].
  unfold BloomFilter._set_bit. monad_unfold. rewrite Hget.
  rewrite (bytearray_set_in _ _ _ Hb Hnew). reflexivity.
Qed.

Lemma same_position i idx :
  0 <= i -> 0 <= idx ->
  Z.to_nat (Z.shiftr i 3) = Z.to_nat (Z.shiftr idx 3) ->
  (Z.land idx 7 =? Z.land i 7) = (i =? idx).
Proof.
  intros Hi Hidx Hk. rewrite !shiftr_3 in Hk. rewrite !land_7.
  assert (i / 8 = idx / 8).
  { apply Z2Nat.inj in Hk; [exact Hk | apply Z.div_pos; lia
                           | apply Z.div_pos; lia]. }
  destruct (Z.eqb_spec (idx mod 8) (i mod 8)) as [E|E];
    destruct (Z.eqb_spec i idx) as [E'|E']; try reflexivity.
  - exfalso. apply E'.
    rewrite (Z.div_mod i 8), (Z.div_mod idx 8) by lia. congruence.
  - exfalso. apply E. congruence.
Qed.

(** [_set_bit] sets the bit it is given and no other. *)
Lemma set_bit_exact bf idx bf' :
  bloom_wf bf -> 0 <= idx < BloomFilter.size bf ->
  BloomFilter._set_bit idx bf = inr (tt, bf') ->
  forall i, 0 <= i ->
    is_set (BloomFilter._bits bf') i
    = is_set (BloomFilter._bits bf) i || (i =? idx).
Proof.
  intros Hwf Hidx Hset i Hi.
  destruct (set_bit_eq bf idx Hwf Hidx) as (old & Hold & _ & Heq).
  rewrite Heq in Hset. injection Hset as <-. simpl. unfold is_set.
  destruct (decide (Z.to_nat (Z.shiftr i 3) = Z.to_nat (Z.shiftr idx 3)))
    as [Hk|Hk].
  - rewrite Hk, list_lookup_insert_eq by (eapply lookup_lt_Some; exact Hold).
    rewrite Hold, Z.lor_spec, Z.shiftl_1_l.
    rewrite Z.pow2_bits_eqb by (rewrite land_7; apply Z.mod_pos_bound; lia).
    rewrite same_position by (lia || exact Hk). reflexivity.
  - rewrite list_lookup_insert_ne by congruence.
    destruct (Z.eqb_spec i idx) as [->|_]; [congruence|].
    rewrite orb_false_r. reflexivity.
Qed.

(** X3. Round trip and frame of the bit accessors: on a well-formed
    filter, after [_set_bit idx] the bit read back at [idx] is 1, and
    the bit read at any other valid index is what it was before. *)
Theorem set_bit_get_bit bf idx idx' :
  bloom_wf bf ->
  0 <= idx < BloomFilter.size bf -> 0 <= idx' < BloomFilter.size bf ->
  exists bf',
    BloomFilter._set_bit idx bf = inr (tt, bf')
    /\ BloomFilter._get_bit idx bf' = inr (1, bf')
    /\ (idx' <> idx ->
        exists b, BloomFilter._get_bit idx' bf = inr (b, bf)
                  /\ BloomFilter._get_bit idx' bf' = inr (b, bf')).
Proof.
  intros Hwf Hidx Hidx'.
  destruct (set_bit_wf bf idx Hwf Hidx) as (bf' & Hset & Hwf' & Hs & _ & Hbit).
  exists bf'. split; [exact Hset|].
  split.
  { rewrite get_bit_wf by (rewrite ?Hs; assumption). rewrite Hbit. reflexivity. }
  intros Hne. exists (Z.b2z (is_set (BloomFilter._bits bf) idx')).
  split; [apply get_bit_wf; assumption|].
  rewrite get_bit_wf by (rewrite ?Hs; assumption).
  rewrite (set_bit_exact bf idx bf' Hwf Hidx Hset idx') by lia.
  destruct (Z.eqb_spec idx' idx); [contradiction|].
  rewrite orb_false_r. reflexivity.
Qed.

Lemma set_bit_get_bit_witness :
  exists bf',
    BloomFilter._set_bit 9 (BloomFilter.mk 16 2 [5; 128]) = inr (tt, bf')
    /\ BloomFilter._get_bit 9 bf' = inr (1, bf')
    /\ (2 <> 9 ->
        exists b, BloomFilter._get_bit 2 (BloomFilter.mk 16 2 [5; 128])
                  = inr (b, BloomFilter.mk 16 2 [5; 128])
                  /\ BloomFilter._get_bit 2 bf' = inr (b, bf')).
Proof.
  apply (set_bit_get_bit (BloomFilter.mk 16 2 [5; 128]) 9 2).
  - constructor; simpl; [lia | lia | reflexivity | repeat constructor; lia].
  - simpl; lia.
  - simpl; lia.
Defined.

(** ** What [add] sets *)

Lemma add_loop_exact s xs : forall bf bf',
  bloom_wf bf ->
  for_ xs (fun i =>
    sz <~ gets BloomFilter.size ;;
    idx <~ lift (py_mod (Mmh3.hash s i) sz) ;;
    BloomFilter._set_bit idx) bf = inr (tt, bf') ->
  forall i, 0 <= i ->
    is_set (BloomFilter._bits bf') i = true
    <-> is_set (BloomFilter._bits bf) i = true
        \/ exists x, x ∈ xs /\ i = Mmh3.hash s x mod BloomFilter.size bf.
Proof.
  induction xs as [|x xs IH]; intros bf bf' Hwf Hrun i Hi.
  - injection Hrun as <-. split; [auto|].
    intros [H|(x & Hx & _)]; [exact H | inversion Hx].
  - destruct (probe_in_range bf s x Hwf) as [Hmod Hrange].
    destruct (set_bit_wf bf _ Hwf Hrange) as (bf1 & Hset & Hwf1 & Hs1 & _).
    simpl in Hrun. monad_unfold. rewrite Hmod, Hset in Hrun.
    rewrite (IH bf1 bf' Hwf1 Hrun i Hi), Hs1.
    rewrite (set_bit_exact bf _ bf1 Hwf Hrange Hset i Hi).
    rewrite orb_true_iff, Z.eqb_eq. split.
    + intros [[H|H]|(y & Hy & Hyi)].
      * left. exact H.
      * right. exists x. split; [apply elem_of_cons; left; reflexivity | exact H].
      * right. exists y. split; [apply elem_of_cons; right; exact Hy | exact Hyi].
    + intros [H|(y & Hy & Hyi)].
      * left. left. exact H.
      * apply elem_of_cons in Hy as [->|Hy].
        -- left. right. exact Hyi.
        -- right. exists y. split; assumption.
Qed.

Lemma add_exact item bf bf' r :
  bloom_wf bf -> ~ blank item ->
  BloomFilter.add item bf = inr (r, bf') ->
  forall i, 0 <= i ->
    is_set (BloomFilter._bits bf') i = true
    <-> is_set (BloomFilter._bits bf) i = true
        \/ probe bf (BloomFilter._normalize item) i.
Proof.
  intros Hwf Hnb Hadd i Hi.
  unfold BloomFilter.add in Hadd.
  apply is_empty_false in Hnb. unfold blank in Hnb. rewrite Hnb in Hadd.
  monad_unfold.
  destruct (for_ _ _ bf) as [e|[[] bf1]] eqn:Hrun; [discriminate|].
  injection Hadd as _ <-.
  rewrite (add_loop_exact _ _ _ _ Hwf Hrun i Hi). unfold probe, range.
  split; (intros [H|(x & Hx & Hxi)]; [left; exact H | right; exists x]).
  - apply elem_of_seqZ in Hx. split; [lia | exact Hxi].
  - split; [apply elem_of_seqZ; lia | exact Hxi].
Qed.

(** X4. [add] sets exactly the probe bits: on a well-formed filter and
    for an item that is not blank, a bit position is set afterwards if
    and only if it was set before or is one of the [num_hashes] positions
    [hash(s, seed) % size] of the item's string. *)
Theorem add_sets_exactly_probes bf item :
  bloom_wf bf -> ~ blank item ->
  exists bf',
    BloomFilter.add item bf = inr (true, bf')
    /\ forall i, 0 <= i ->
         is_set (BloomFilter._bits bf') i = true
         <-> is_set (BloomFilter._bits bf) i = true
             \/ exists seed, 0 <= seed < BloomFilter.num_hashes bf
                  /\ i = Mmh3.hash (BloomFilter._normalize item) seed
                           mod BloomFilter.size bf.
Proof.
  intros Hwf Hnb.
  destruct (add_wf item bf Hwf Hnb) as (bf' & Hadd & _).
  exists bf'. split; [exact Hadd|].
  exact (add_exact item bf bf' true Hwf Hnb Hadd).
Qed.

Lemma add_sets_exactly_probes_witness :
  exists bf',
    BloomFilter.add (PStr (u "guest")) (BloomFilter.mk 16 2 [5; 128])
    = inr (true, bf')
    /\ forall i, 0 <= i ->
         is_set (BloomFilter._bits bf') i = true
         <-> is_set (BloomFilter._bits (BloomFilter.mk 16 2 [5; 128])) i = true
             \/ exists seed,
                  0 <= seed < BloomFilter.num_hashes (BloomFilter.mk 16 2 [5; 128])
                  /\ i = Mmh3.hash (BloomFilter._normalize (PStr (u "guest"))) seed
                           mod BloomFilter.size (BloomFilter.mk 16 2 [5; 128]).
Proof.
  apply (add_sets_exactly_probes (BloomFilter.mk 16 2 [5; 128])
           (PStr (u "guest"))).
  - constructor; simpl; [lia | lia | reflexivity | repeat constructor; lia].
  - unfold blank. vm_compute. discriminate.
Defined.

Lemma probe_same_shape bf bf' s i :
  same_shape bf bf' -> probe bf s i <-> probe bf' s i.
Proof.
  intros [Hs Hk]. unfold probe. rewrite Hs, Hk. reflexivity.
Qed.

Lemma do_call_exact c bf r bf' :
  bloom_wf bf -> do_call c bf = inr (r, bf') ->
  forall i, 0 <= i ->
    is_set (BloomFilter._bits bf') i = true
    <-> is_set (BloomFilter._bits bf) i = true \/ added_probe bf [c] i.
Proof.
  intros Hwf Hc i Hi. unfold added_probe.
  destruct c as [item|item]; simpl in Hc;
    destruct (blank_dec item) as [Hb|Hb].
  - rewrite add_blank in Hc by exact Hb. injection Hc as _ <-.
    split; [auto|]. intros [H|(it & Hin & Hnb & _)]; [exact H|].
    apply list_elem_of_singleton in Hin. injection Hin as ->. contradiction.
  - rewrite (add_exact item bf bf' r Hwf Hb Hc i Hi).
    split; (intros [H|H]; [left; exact H | right]).
    + exists item. split; [apply list_elem_of_singleton; reflexivity|].
      split; assumption.
    + destruct H as (it & Hin & _ & Hp).
      apply list_elem_of_singleton in Hin. injection Hin as ->. exact Hp.
  - rewrite contains_blank in Hc by exact Hb. injection Hc as _ <-.
    split; [auto|]. intros [H|(it & Hin & _)]; [exact H|].
    apply list_elem_of_singleton in Hin. discriminate.
  - destruct (contains_wf item bf Hwf Hb) as (r' & Hr & _).
    rewrite Hr in Hc. injection Hc as _ <-.
    split; [auto|]. intros [H|(it & Hin & _)]; [exact H|].
    apply list_elem_of_singleton in Hin. discriminate.
Qed.

Lemma do_calls_exact cs : forall bf rs bf',
  bloom_wf bf -> do_calls cs bf = inr (rs, bf') ->
  forall i, 0 <= i ->
    is_set (BloomFilter._bits bf') i = true
    <-> is_set (BloomFilter._bits bf) i = true \/ added_probe bf cs i.
Proof.
  induction cs as [|c cs IH]; intros bf rs bf' Hwf Hrun i Hi.
  - injection Hrun as _ <-. split; [auto|].
    intros [H|(it & Hin & _)]; [exact H | inversion Hin].
  - destruct (do_call_wf c bf Hwf) as (r & bf1 & Hc & Hwf1 & Hshape & _).
    simpl in Hrun. monad_unfold. rewrite Hc in Hrun.
    destruct (do_calls cs bf1) as [e|[rs1 bf2]] eqn:Hcs; [discriminate|].
    injection Hrun as _ <-.
    rewrite (IH bf1 rs1 bf2 Hwf1 Hcs i Hi).
    rewrite (do_call_exact c bf r bf1 Hwf Hc i Hi).
    unfold added_probe. split.
    + intros [[H|(it & Hin & Hnb & Hp)]|(it & Hin & Hnb & Hp)].
      * left. exact H.
      * right. exists it. apply list_elem_of_singleton in Hin. subst c.
        split; [apply elem_of_cons; left; reflexivity|]. split; assumption.
      * right. exists it. split; [apply elem_of_cons; right; exact Hin|].
        split; [exact Hnb|]. apply (probe_same_shape bf bf1); assumption.
    + intros [H|(it & Hin & Hnb & Hp)]; [left; left; exact H|].
      apply elem_of_cons in Hin as [<-|Hin].
      * left. right. exists it.
        split; [apply list_elem_of_singleton; reflexivity|]. split; assumption.
      * right. exists it. split; [exact Hin|]. split; [exact Hnb|].
        apply (probe_same_shape bf bf1); assumption.
Qed.

Lemma new_filter_clear sz k bf i :
  BloomFilter.__init__ (PInt sz) (PInt k) = inr bf ->
  is_set (BloomFilter._bits bf) i = false.
Proof.
  unfold BloomFilter.__init__, bytearray.
  destruct (sz <=? 0); [discriminate|]. destruct (k <=? 0); [discriminate|].
  destruct ((sz + 7) / 8 <? 0); [discriminate|].
  intros [= <-]. simpl. unfold is_set.
  destruct (replicate _ 0 !! _) as [v|] eqn:E; [|reflexivity].
  apply lookup_replicate in E as [-> _]. apply Z.bits_0.
Qed.

(** X2. A new filter contains nothing: on the filter the constructor
    returns for a positive size and hash count, [contains] is [False]
    for every item. *)
Theorem new_filter_contains_nothing sz k item :
  0 < sz -> 0 < k ->
  exists bf,
    BloomFilter.__init__ (PInt sz) (PInt k) = inr bf
    /\ BloomFilter.contains item bf = inr (false, bf).
Proof.
  intros Hsz Hk.
  destruct (init_wf sz k Hsz Hk) as (bf & Hinit & Hwf & Hs & Hkk & _).
  exists bf. split; [exact Hinit|].
  destruct (blank_dec item) as [Hb|Hb]; [apply contains_blank, Hb|].
  destruct (contains_wf item bf Hwf Hb) as ([|] & Hr & Hiff); [|exact Hr].
  exfalso. destruct Hiff as [Hall _].
  specialize (Hall eq_refl 0 ltac:(lia)).
  rewrite (new_filter_clear sz k bf _ Hinit) in Hall. discriminate.
Qed.

Lemma new_filter_contains_nothing_witness :
  exists bf,
    BloomFilter.__init__ (PInt 1000) (PInt 3) = inr bf
    /\ BloomFilter.contains (PStr (u "password123")) bf = inr (false, bf).
Proof.
  apply (new_filter_contains_nothing 1000 3 (PStr (u "password123"))); lia.
Defined.

(** X5. What [contains] answers after any calls on a new filter: for an
    item that is not blank it is [True] exactly when each of the item's
    probe positions is a probe position of some non-blank item that was
    added; so a false positive needs every probe to collide, and an item
    with one probe that no added item hits is reported absent. *)
Theorem contains_after_calls sz k (cs : list call) q :
  0 < sz -> 0 < k -> ~ blank q ->
  exists bf0 rs bf r,
    BloomFilter.__init__ (PInt sz) (PInt k) = inr bf0
    /\ do_calls cs bf0 = inr (rs, bf)
    /\ BloomFilter.contains q bf = inr (r, bf)
    /\ (r = true <->
        forall seed, 0 <= seed < k ->
          exists item seed',
            CallAdd item ∈ cs /\ ~ blank item /\ 0 <= seed' < k
            /\ Mmh3.hash (BloomFilter._normalize q) seed mod sz
               = Mmh3.hash (BloomFilter._normalize item) seed' mod sz).
Proof.
  intros Hsz Hk Hnb.
  destruct (init_wf sz k Hsz Hk) as (bf0 & Hinit & Hwf0 & Hs0 & Hk0 & _).
  destruct (do_calls_wf cs bf0 Hwf0) as (rs & bf & Hrun & _ & Hwf & [Hs Hkk] & _).
  destruct (contains_wf q bf Hwf Hnb) as (r & Hr & Hiff).
  exists bf0, rs, bf, r.
  split; [exact Hinit|]. split; [exact Hrun|]. split; [exact Hr|].
  rewrite Hiff. unfold all_probes_set. rewrite Hs, Hkk, Hs0, Hk0.
  assert (Hbit : forall i, 0 <= i ->
            is_set (BloomFilter._bits bf) i = true <-> added_probe bf0 cs i).
  { intros i Hi. rewrite (do_calls_exact cs bf0 rs bf Hwf0 Hrun i Hi).
    rewrite (new_filter_clear sz k bf0 i Hinit). split; [|auto].
    intros [H|H]; [discriminate | exact H]. }
  assert (Hpos : forall seed,
            0 <= Mmh3.hash (BloomFilter._normalize q) seed mod sz)
    by (intros seed; apply Z.mod_pos_bound; lia).
  split.
  - intros H seed Hseed. specialize (H seed Hseed).
    apply Hbit in H; [|apply Hpos].
    destruct H as (item & Hin & Hnbi & seed' & Hseed' & Heq).
    rewrite Hs0, Hk0 in *. exists item, seed'. auto.
  - intros H seed Hseed. apply Hbit; [apply Hpos|].
    destruct (H seed Hseed) as (item & seed' & Hin & Hnbi & Hseed' & Heq).
    exists item. split; [exact Hin|]. split; [exact Hnbi|].
    exists seed'. rewrite Hs0, Hk0. auto.
Qed.

Lemma contains_after_calls_witness :
  exists bf0 rs bf r,
    BloomFilter.__init__ (PInt 1000) (PInt 3) = inr bf0
    /\ do_calls [CallAdd (PStr (u "admin123")); CallAdd PNone] bf0
       = inr (rs, bf)
    /\ BloomFilter.contains (PStr (u "guest")) bf = inr (r, bf)
    /\ (r = true <->
        forall seed, 0 <= seed < 3 ->
          exists item seed',
            CallAdd item ∈ [CallAdd (PStr (u "admin123")); CallAdd PNone]
            /\ ~ blank item /\ 0 <= seed' < 3
            /\ Mmh3.hash (BloomFilter._normalize (PStr (u "guest"))) seed
                 mod 1000
               = Mmh3.hash (BloomFilter._normalize item) seed' mod 1000).
Proof.
  apply (contains_after_calls 1000 3
           [CallAdd (PStr (u "admin123")); CallAdd PNone] (PStr (u "guest"))).
  - lia.
  - lia.
  - unfold blank. vm_compute. discriminate.
Defined.

(** ** Adding what is already there *)

Lemma lor_bit_set old n :
  0 <= n -> Z.testbit old n = true -> Z.lor old (Z.shiftl 1 n) = old.
Proof.
  intros Hn Hbit. apply Z.bits_inj'. intros m Hm.
  rewrite Z.lor_spec, Z.shiftl_1_l, Z.pow2_bits_eqb by lia.
  destruct (Z.eqb_spec n m) as [<-|_]; [rewrite Hbit|]; auto using orb_false_r.
Qed.

Lemma set_bit_already bf idx :
  bloom_wf bf -> 0 <= idx < BloomFilter.size bf ->
  is_set (BloomFilter._bits bf) idx = true ->
  BloomFilter._set_bit idx bf = inr (tt, bf).
Proof.
  intros Hwf Hidx Hbit.
  destruct (set_bit_eq bf idx Hwf Hidx) as (old & Hold & _ & Heq).
  rewrite Heq. unfold is_set in Hbit. rewrite Hold in Hbit.
  rewrite lor_bit_set
    by (try exact Hbit; rewrite land_7; apply Z.mod_pos_bound; lia).
  rewrite list_insert_id by exact Hold. destruct bf; reflexivity.
Qed.

Lemma add_loop_already s bf xs :
  bloom_wf bf ->
  (forall x, x ∈ xs ->
     is_set (BloomFilter._bits bf)
            (Mmh3.hash s x mod BloomFilter.size bf) = true) ->
  for_ xs (fun i =>
    sz <~ gets BloomFilter.size ;;
    idx <~ lift (py_mod (Mmh3.hash s i) sz) ;;
    BloomFilter._set_bit idx) bf = inr (tt, bf).
Proof.
  intros Hwf. induction xs as [|x xs IH]; intros Hall; [reflexivity|].
  destruct (probe_in_range bf s x Hwf) as [Hmod Hrange].
  simpl. monad_unfold. rewrite Hmod.
  rewrite (set_bit_already bf _ Hwf Hrange)
    by (apply Hall, elem_of_cons; left; reflexivity).
  apply IH. intros y Hy. apply Hall, elem_of_cons. right. exact Hy.
Qed.

Lemma add_already item bf :
  bloom_wf bf -> ~ blank item ->
  all_probes_set bf (BloomFilter._normalize item) ->
  BloomFilter.add item bf = inr (true, bf).
Proof.
  intros Hwf Hnb Hall.
  assert (Hrun := add_loop_already (BloomFilter._normalize item) bf
                    (range (BloomFilter.num_hashes bf)) Hwf).
  unfold BloomFilter.add.
  apply is_empty_false in Hnb. unfold blank in Hnb. rewrite Hnb.
  monad_unfold. rewrite Hrun; [reflexivity|].
  intros x Hx. apply Hall. unfold range in Hx. apply elem_of_seqZ in Hx. lia.
Qed.

(** X6. Adding what the filter already reports changes nothing: on a
    well-formed filter, if [contains item] is [True] then [add item]
    returns [True] and leaves the filter exactly as it was. *)
Theorem add_of_contained bf item :
  bloom_wf bf ->
  BloomFilter.contains item bf = inr (true, bf) ->
  BloomFilter.add item bf = inr (true, bf).
Proof.
  intros Hwf Hc.
  destruct (blank_dec item) as [Hb|Hb].
  - rewrite contains_blank in Hc by exact Hb. discriminate.
  - destruct (contains_wf item bf Hwf Hb) as (r & Hr & Hiff).
    assert (r = true) by congruence. subst r.
    apply add_already; [exact Hwf | exact Hb | apply Hiff; reflexivity].
Qed.

Lemma add_of_contained_witness :
  BloomFilter.add (PStr (u "guest")) (BloomFilter.mk 16 2 [255; 255])
  = inr (true, BloomFilter.mk 16 2 [255; 255]).
Proof.
  apply (add_of_contained (BloomFilter.mk 16 2 [255; 255]) (PStr (u "guest"))).
  - constructor; simpl; [lia | lia | reflexivity | repeat constructor; lia].
  - vm_compute. reflexivity.
Defined.

(** ** The filter as a set of bits *)

Lemma byte_high_bits v n : 0 <= v < 256 -> 8 <= n -> Z.testbit v n = false.
Proof.
  intros Hv Hn. destruct (Z.eq_dec v 0) as [->|Hne]; [apply Z.bits_0|].
  apply Z.bits_above_log2; [lia|].
  assert (Z.log2 v < 8) by (apply Z.log2_lt_pow2; [lia|]; change (2 ^ 8) with 256; lia).
  lia.
Qed.

Lemma is_set_byte bits k n :
  0 <= n < 8 ->
  is_set bits (8 * Z.of_nat k + n)
  = match bits !! k with Some v => Z.testbit v n | None => false end.
Proof.
  intros Hn. unfold is_set. rewrite shiftr_3, land_7.
  replace ((8 * Z.of_nat k + n) / 8) with (Z.of_nat k)
    by (Z.div_mod_to_equations; lia).
  replace ((8 * Z.of_nat k + n) mod 8) with n
    by (Z.div_mod_to_equations; lia).
  rewrite Nat2Z.id. reflexivity.
Qed.

(** Two byte arrays with the same set bits are the same array. *)
Lemma bytes_ext (b1 b2 : list Z) :
  length b1 = length b2 ->
  Forall is_byte b1 -> Forall is_byte b2 ->
  (forall i, 0 <= i -> is_set b1 i = is_set b2 i) ->
  b1 = b2.
Proof.
  intros Hlen H1 H2 Hbits. apply list_eq. intros k.
  destruct (b1 !! k) as [v1|] eqn:E1; destruct (b2 !! k) as [v2|] eqn:E2.
  - f_equal. apply Z.bits_inj'. intros n Hn.
    destruct (Z.lt_ge_cases n 8) as [Hlt|Hge].
    + specialize (Hbits (8 * Z.of_nat k + n) ltac:(lia)).
      rewrite !is_set_byte, E1, E2 in Hbits by lia. exact Hbits.
    + rewrite Forall_lookup in H1, H2.
      rewrite (byte_high_bits v1 n (H1 _ _ E1) Hge).
      rewrite (byte_high_bits v2 n (H2 _ _ E2) Hge). reflexivity.
  - apply lookup_lt_Some in E1. apply lookup_ge_None in E2. lia.
  - apply lookup_ge_None in E1. apply lookup_lt_Some in E2. lia.
  - reflexivity.
Qed.

Lemma filter_ext bf bf1 bf2 :
  bloom_wf bf1 -> bloom_wf bf2 ->
  same_shape bf bf1 -> same_shape bf bf2 ->
  (forall i, 0 <= i ->
     is_set (BloomFilter._bits bf1) i = true
     <-> is_set (BloomFilter._bits bf2) i = true) ->
  bf1 = bf2.
Proof.
  intros [_ _ Hl1 Hb1] [_ _ Hl2 Hb2] [Hs1 Hk1] [Hs2 Hk2] Hbits.
  destruct bf1 as [s1 k1 b1], bf2 as [s2 k2 b2]. simpl in *.
  assert (b1 = b2).
  { apply bytes_ext; try assumption.
    - apply Nat2Z.inj. congruence.
    - intros i Hi. specialize (Hbits i Hi).
      destruct (is_set b1 i), (is_set b2 i); try reflexivity;
        destruct Hbits as [Ha Hb]; [symmetry; apply Ha | apply Hb];
        reflexivity. }
  congruence.
Qed.

Lemma added_probe_adds bf (l : list pyval) i :
  added_probe bf (CallAdd <$> l) i
  <-> exists item, item ∈ l /\ ~ blank item
                   /\ probe bf (BloomFilter._normalize item) i.
Proof.
  unfold added_probe. split; intros (item & Hin & H).
  - exists item. split; [|exact H].
    apply list_elem_of_fmap in Hin as (y & Hy & Hyl). injection Hy as ->.
    exact Hyl.
  - exists item. split; [|exact H]. apply list_elem_of_fmap.
    exists item. split; [reflexivity | exact Hin].
Qed.

(** X7. Order and repetition of additions do not matter: on a
    well-formed filter, two sequences of [add] calls over lists with the
    same elements leave exactly the same filter. *)
Theorem adds_order_irrelevant bf (l1 l2 : list pyval) :
  bloom_wf bf -> (forall x, x ∈ l1 <-> x ∈ l2) ->
  exists rs1 rs2 bf',
    do_calls (CallAdd <$> l1) bf = inr (rs1, bf')
    /\ do_calls (CallAdd <$> l2) bf = inr (rs2, bf').
Proof.
  intros Hwf Hsame.
  destruct (do_calls_wf (CallAdd <$> l1) bf Hwf)
    as (rs1 & bf1 & Hrun1 & _ & Hwf1 & Hshape1 & _).
  destruct (do_calls_wf (CallAdd <$> l2) bf Hwf)
    as (rs2 & bf2 & Hrun2 & _ & Hwf2 & Hshape2 & _).
  assert (bf1 = bf2) as <-.
  { apply (filter_ext bf); try assumption. intros i Hi.
    rewrite (do_calls_exact _ bf rs1 bf1 Hwf Hrun1 i Hi).
    rewrite (do_calls_exact _ bf rs2 bf2 Hwf Hrun2 i Hi).
    rewrite !added_probe_adds.
    split; (intros [H|(item & Hin & H)]; [left; exact H | right]);
      exists item; (split; [apply Hsame; exact Hin | exact H]). }
  exists rs1, rs2, bf1. split; assumption.
Qed.

Lemma adds_order_irrelevant_witness :
  exists rs1 rs2 bf',
    do_calls (CallAdd <$> [PStr (u "a"); PInt 5; PStr (u "a")])
             (BloomFilter.mk 16 2 [5; 128]) = inr (rs1, bf')
    /\ do_calls (CallAdd <$> [PInt 5; PStr (u "a")])
                (BloomFilter.mk 16 2 [5; 128]) = inr (rs2, bf').
Proof.
  apply (adds_order_irrelevant (BloomFilter.mk 16 2 [5; 128])
           [PStr (u "a"); PInt 5; PStr (u "a")] [PInt 5; PStr (u "a")]).
  - constructor; simpl; [lia | lia | reflexivity | repeat constructor; lia].
  - intros x. rewrite !elem_of_cons. rewrite !elem_of_nil. tauto.
Defined.

(** ** More on the batch check *)

Lemma classified_add bf p l bf' :
  bloom_wf bf -> classified bf p l bf' ->
  exists r, BloomFilter.add p bf = inr (r, bf').
Proof.
  intros Hwf [Hb | Hrej Hc | r bf1 Hrej Hc Ha].
  - exists false. apply add_blank, rejected_blank, Hb.
  - exists true.
    assert (Hnb : ~ blank p).
    { intros Hb. rewrite contains_blank in Hc by exact Hb. discriminate. }
    destruct (contains_wf p bf Hwf Hnb) as (r & Hr & Hiff).
    assert (r = true) by congruence. subst r.
    apply add_already; [exact Hwf | exact Hnb | apply Hiff; reflexivity].
  - exists r. exact Ha.
Qed.

Lemma batch_classified_adds bf ps ls bf' :
  batch_classified bf ps ls bf' -> bloom_wf bf ->
  exists rs, do_calls (CallAdd <$> ps) bf = inr (rs, bf').
Proof.
  induction 1 as [bf | bf p l bf1 ps ls bf2 Hc Hb IH]; intros Hwf.
  - exists []. reflexivity.
  - destruct (classified_add bf p l bf1 Hwf Hc) as (r & Ha).
    destruct (classified_wf bf p l bf1 Hwf Hc) as (Hwf1 & _).
    destruct (IH Hwf1) as (rs & Hrs).
    exists (r :: rs). cbn [fmap list_fmap do_calls do_call]. monad_unfold.
    simpl. rewrite Ha. cbn [fmap] in Hrs. rewrite Hrs. reflexivity.
Qed.

(** X8. The batch check leaves the filter as adding every candidate
    would: on a well-formed filter, [check_password_uniqueness] and the
    sequence of [add] calls on the same candidates end in the same
    filter. *)
Theorem check_leaves_filter_as_adds bf (ps : list pyval) :
  bloom_wf bf ->
  exists r rs bf',
    check_password_uniqueness ps bf = inr (r, bf')
    /\ do_calls (CallAdd <$> ps) bf = inr (rs, bf').
Proof.
  intros Hwf.
  destruct (check_loop_classified ps ∅ bf Hwf) as (ls & bf' & Hb & Hrun & _).
  destruct (batch_classified_adds bf ps ls bf' Hb Hwf) as (rs & Hrs).
  eexists _, rs, bf'. split; [exact Hrun | exact Hrs].
Qed.

Lemma check_leaves_filter_as_adds_witness :
  exists r rs bf',
    check_password_uniqueness [PStr (u "guest"); PNone; PStr (u "guest")]
      (BloomFilter.mk 16 2 [5; 128]) = inr (r, bf')
    /\ do_calls (CallAdd <$> [PStr (u "guest"); PNone; PStr (u "guest")])
         (BloomFilter.mk 16 2 [5; 128]) = inr (rs, bf').
Proof.
  apply (check_leaves_filter_as_adds (BloomFilter.mk 16 2 [5; 128])
           [PStr (u "guest"); PNone; PStr (u "guest")]).
  constructor; simpl; [lia | lia | reflexivity | repeat constructor; lia].
Defined.

Lemma batch_classified_wf bf ps ls bf' :
  batch_classified bf ps ls bf' -> bloom_wf bf ->
  bloom_wf bf' /\ same_shape bf bf' /\ bits_kept bf bf'.
Proof.
  induction 1 as [bf | bf p l bf1 ps ls bf2 Hc Hb IH]; intros Hwf.
  - split; [exact Hwf|]. split; [split; reflexivity | apply bits_kept_refl].
  - destruct (classified_wf bf p l bf1 Hwf Hc) as (Hwf1 & Hs1 & Hk1 & _).
    destruct (IH Hwf1) as (Hwf2 & Hs2 & Hk2).
    split; [exact Hwf2|].
    split; [eapply same_shape_trans | eapply bits_kept_trans]; eassumption.
Qed.

(** After a batch every valid candidate has all its probes set. *)
Lemma batch_all_seen bf ps ls bf' :
  batch_classified bf ps ls bf' -> bloom_wf bf ->
  forall p, p ∈ ps -> ~ blank p ->
            all_probes_set bf' (BloomFilter._normalize p).
Proof.
  induction 1 as [bf | bf p0 l bf1 ps ls bf2 Hc Hb IH];
    intros Hwf p Hin Hnb.
  - inversion Hin.
  - destruct (classified_wf bf p0 l bf1 Hwf Hc) as (Hwf1 & _ & _ & Huniq).
    apply elem_of_cons in Hin as [->|Hin]; [|exact (IH Hwf1 p Hin Hnb)].
    destruct (batch_classified_wf _ _ _ _ Hb Hwf1) as (_ & Hshape & Hkept).
    apply (all_probes_kept bf1 bf2); try assumption.
    inversion Hc as [Hrej | Hrej Hcon | r bf0 Hrej Hcon Ha]; subst.
    + apply rejected_blank in Hrej. contradiction.
    + destruct (contains_wf p0 bf1 Hwf Hnb) as (r & Hr & Hiff).
      assert (r = true) by congruence. subst r. apply Hiff. reflexivity.
    + apply Huniq; [reflexivity | exact Hnb].
Qed.

Lemma check_loop_all_seen ps : forall results bf,
  bloom_wf bf ->
  (forall p, p ∈ ps -> ~ blank p ->
             all_probes_set bf (BloomFilter._normalize p)) ->
  check_loop results ps bf
  = inr (record_all results (zip (result_key <$> ps) (seen_label <$> ps)), bf).
Proof.
  induction ps as [|p ps IH]; intros results bf Hwf Hall; [reflexivity|].
  assert (Hone : check_one results p bf
                 = inr (<[result_key p := seen_label p]> results, bf)).
  { unfold check_one, seen_label. destruct (rejected p) eqn:Hrej; [reflexivity|].
    destruct (blank_dec p) as [Hb|Hnb].
    { pose proof (contains_blank p bf Hb) as Hc.
      pose proof (add_blank p bf Hb) as Ha.
      apply is_empty_true in Hb. rewrite Hb.
      monad_unfold. rewrite Hc, Ha. reflexivity. }
    replace (is_empty (strip (BloomFilter._normalize p))) with false
      by (destruct (is_empty _) eqn:He; [apply is_empty_true in He|];
          [destruct (Hnb He) | reflexivity]).
    destruct (contains_wf p bf Hwf Hnb) as (r & Hr & Hiff).
    assert (r = true) as ->.
    { apply Hiff, Hall; [apply elem_of_cons; left; reflexivity | exact Hnb]. }
    monad_unfold. rewrite Hr. reflexivity. }
  cbn [check_loop]. monad_unfold. rewrite Hone.
  rewrite IH; [reflexivity | exact Hwf |].
  intros q Hq. apply Hall, elem_of_cons. right. exact Hq.
Qed.

(** X10. Checking a batch a second time: on a well-formed filter, after
    [check_password_uniqueness] on a batch, the same call again leaves
    the filter as it is and labels every candidate by [seen_label]:
    invalid when the loop rejects it ([None] or a blank [str]), unique
    when it is not rejected but its string form is blank (an object that
    is not a [str]: [add] never stores it), and "already used"
    otherwise. *)
Theorem second_check_all_used bf (ps : list pyval) :
  bloom_wf bf ->
  exists r1 bf1,
    check_password_uniqueness ps bf = inr (r1, bf1)
    /\ check_password_uniqueness ps bf1
       = inr (record_all ∅
                (zip (result_key <$> ps)
                     ((fun p =>
                         if rejected p then status_invalid
                         else if is_empty (strip (BloomFilter._normalize p))
                              then status_unique
                              else status_used) <$> ps)),
              bf1).
Proof.
  intros Hwf.
  destruct (check_loop_classified ps ∅ bf Hwf) as (ls & bf1 & Hb & Hrun & Hwf1).
  eexists _, bf1. split; [exact Hrun|].
  unfold check_password_uniqueness.
  rewrite (check_loop_all_seen ps ∅ bf1 Hwf1); [reflexivity|].
  exact (batch_all_seen _ _ _ _ Hb Hwf).
Qed.

Lemma second_check_all_used_witness :
  exists r1 bf1,
    check_password_uniqueness
      [PStr (u "newpassword"); PNone; PInt 7; PObj (u " ")]
      (BloomFilter.mk 16 2 [5; 128]) = inr (r1, bf1)
    /\ check_password_uniqueness
         [PStr (u "newpassword"); PNone; PInt 7; PObj (u " ")] bf1
       = inr (record_all ∅
                (zip (result_key
                        <$> [PStr (u "newpassword"); PNone; PInt 7;
                             PObj (u " ")])
                     ((fun p =>
                         if rejected p then status_invalid
                         else if is_empty (strip (BloomFilter._normalize p))
                              then status_unique
                              else status_used)
                        <$> [PStr (u "newpassword"); PNone; PInt 7;
                             PObj (u " ")])),
              bf1).
Proof.
  apply (second_check_all_used (BloomFilter.mk 16 2 [5; 128])
           [PStr (u "newpassword"); PNone; PInt 7; PObj (u " ")]).
  constructor; simpl; [lia | lia | reflexivity | repeat constructor; lia].
Defined.

(** ** The dictionary returned *)

Lemma record_all_untouched kls : forall (r : gmap str str) k,
  (forall kv, kv ∈ kls -> kv.1 <> k) ->
  record_all r kls !! k = r !! k.
Proof.
  induction kls as [|kv kls IH]; intros r k Hne; [reflexivity|].
  change (record_all r (kv :: kls))
    with (record_all (<[kv.1 := kv.2]> r) kls).
  rewrite IH by (intros kv' H; apply Hne, elem_of_cons; right; exact H).
  apply lookup_insert_ne, Hne, elem_of_cons. left. reflexivity.
Qed.

Lemma record_all_last kls : forall (r : gmap str str) i k v,
  kls !! i = Some (k, v) ->
  (forall j kv, (i < j)%nat -> kls !! j = Some kv -> kv.1 <> k) ->
  record_all r kls !! k = Some v.
Proof.
  induction kls as [|kv kls IH]; intros r i k v Hi Hlater.
  - rewrite lookup_nil in Hi. discriminate.
  - change (record_all r (kv :: kls))
      with (record_all (<[kv.1 := kv.2]> r) kls).
    destruct i as [|i]; simpl in Hi.
    + injection Hi as ->. rewrite record_all_untouched.
      * apply lookup_insert_eq.
      * intros kv' Hin. apply list_elem_of_lookup in Hin as (j & Hj).
        apply (Hlater (S j)); [lia | exact Hj].
    + apply (IH _ i); [exact Hi|].
      intros j kv' Hij Hj. apply (Hlater (S j)); [lia | exact Hj].
Qed.

Lemma record_all_lookup kls : forall (r : gmap str str) k v,
  record_all r kls !! k = Some v ->
  r !! k = Some v \/ (k, v) ∈ kls.
Proof.
  induction kls as [|[k0 v0] kls IH]; intros r k v H; [left; exact H|].
  change (record_all r ((k0, v0) :: kls))
    with (record_all (<[k0 := v0]> r) kls) in H.
  apply IH in H as [H|H].
  - destruct (decide (k0 = k)) as [->|Hne].
    + rewrite lookup_insert_eq in H. injection H as ->.
      right. apply elem_of_cons. left. reflexivity.
    + rewrite lookup_insert_ne in H by exact Hne. left. exact H.
  - right. apply elem_of_cons. right. exact H.
Qed.

Lemma record_all_dom kls : forall (r : gmap str str) k,
  is_Some (record_all r kls !! k) <-> is_Some (r !! k) \/ k ∈ kls.*1.
Proof.
  induction kls as [|[k0 v0] kls IH]; intros r k.
  - simpl. split; [auto|]. intros [H|H]; [exact H | inversion H].
  - change (record_all r ((k0, v0) :: kls))
      with (record_all (<[k0 := v0]> r) kls).
    rewrite IH. cbn [fmap list_fmap fst]. rewrite elem_of_cons.
    destruct (decide (k0 = k)) as [->|Hne].
    + rewrite lookup_insert_eq. split; [|eauto]. intros _. right. left. reflexivity.
    + rewrite lookup_insert_ne by exact Hne. split.
      * intros [H|H]; [left | right; right]; exact H.
      * intros [H|[H|H]]; [left; exact H | congruence | right; exact H].
Qed.

Lemma batch_labels bf ps ls bf' :
  batch_classified bf ps ls bf' ->
  forall l, l ∈ ls ->
            l = status_invalid \/ l = status_used \/ l = status_unique.
Proof.
  induction 1 as [bf | bf p l0 bf1 ps ls bf2 Hc Hb IH]; intros l Hin.
  - inversion Hin.
  - apply elem_of_cons in Hin as [->|Hin]; [|exact (IH l Hin)].
    destruct Hc; auto.
Qed.

(** X9. The keys and values of the result: on a well-formed filter the
    dictionary returned has an entry exactly for the key of each
    candidate (["None"], the string itself, or the string form of an
    [int] or of another object), and
    each value is one of the three status strings. *)
Theorem result_keys_and_values bf (ps : list pyval) :
  bloom_wf bf ->
  exists r bf',
    check_password_uniqueness ps bf = inr (r, bf')
    /\ (forall key, is_Some (r !! key) <-> key ∈ result_key <$> ps)
    /\ (forall key v, r !! key = Some v ->
          v = status_invalid \/ v = status_used \/ v = status_unique).
Proof.
  intros Hwf.
  destruct (check_loop_classified ps ∅ bf Hwf) as (ls & bf' & Hb & Hrun & _).
  pose proof (batch_classified_length _ _ _ _ Hb) as Hlen.
  eexists _, bf'. split; [exact Hrun|]. split.
  - intros key. rewrite record_all_dom, lookup_empty.
    rewrite fst_zip by (rewrite length_fmap; lia).
    split; [|auto]. intros [[x Hx]|H]; [discriminate | exact H].
  - intros key v Hv. apply record_all_lookup in Hv as [Hv|Hv].
    + rewrite lookup_empty in Hv. discriminate.
    + apply (batch_labels _ _ _ _ Hb).
      apply elem_of_zip_r in Hv. exact Hv.
Qed.

Lemma result_keys_and_values_witness :
  exists r bf',
    check_password_uniqueness [PStr (u "guest"); PNone; PInt (-3)]
      (BloomFilter.mk 16 2 [5; 128]) = inr (r, bf')
    /\ (forall key, is_Some (r !! key)
                    <-> key ∈ result_key <$> [PStr (u "guest"); PNone; PInt (-3)])
    /\ (forall key v, r !! key = Some v ->
          v = status_invalid \/ v = status_used \/ v = status_unique).
Proof.
  apply (result_keys_and_values (BloomFilter.mk 16 2 [5; 128])
           [PStr (u "guest"); PNone; PInt (-3)]).
  constructor; simpl; [lia | lia | reflexivity | repeat constructor; lia].
Defined.

(** X11. Last write wins: on a well-formed filter, the value the result
    holds under a candidate's key is the classification of the last
    candidate with that key; an earlier candidate's label is lost when a
    later one has the same key. *)
Theorem last_candidate_wins bf (ps : list pyval) :
  bloom_wf bf ->
  exists ls r bf',
    batch_classified bf ps ls bf'
    /\ check_password_uniqueness ps bf = inr (r, bf')
    /\ forall i p l,
         ps !! i = Some p -> ls !! i = Some l ->
         (forall j q, (i < j)%nat -> ps !! j = Some q ->
                      result_key q <> result_key p) ->
         r !! result_key p = Some l.
Proof.
  intros Hwf.
  destruct (check_loop_classified ps ∅ bf Hwf) as (ls & bf' & Hb & Hrun & _).
  eexists ls, _, bf'. split; [exact Hb|]. split; [exact Hrun|].
  intros i p l Hp Hl Hlater. apply (record_all_last _ _ i).
  - apply lookup_zip_with_Some. exists (result_key p), l.
    split; [reflexivity|]. split; [|exact Hl].
    rewrite list_lookup_fmap, Hp. reflexivity.
  - intros j [k v] Hij Hj. apply lookup_zip_with_Some in Hj
      as (k' & v' & Heq & Hk & _). injection Heq as -> ->.
    rewrite list_lookup_fmap in Hk.
    destruct (ps !! j) as [q|] eqn:Hq; [|discriminate].
    injection Hk as <-. exact (Hlater j q Hij Hq).
Qed.

Lemma last_candidate_wins_witness :
  exists ls r bf',
    batch_classified (BloomFilter.mk 16 2 [5; 128])
      [PNone; PStr (u "None")] ls bf'
    /\ check_password_uniqueness [PNone; PStr (u "None")]
         (BloomFilter.mk 16 2 [5; 128]) = inr (r, bf')
    /\ forall i p l,
         [PNone; PStr (u "None")] !! i = Some p -> ls !! i = Some l ->
         (forall j q, (i < j)%nat -> [PNone; PStr (u "None")] !! j = Some q ->
                      result_key q <> result_key p) ->
         r !! result_key p = Some l.
Proof.
  apply (last_candidate_wins (BloomFilter.mk 16 2 [5; 128])
           [PNone; PStr (u "None")]).
  constructor; simpl; [lia | lia | reflexivity | repeat constructor; lia].
Defined.

(** A null candidate followed by the string ["None"]: one entry, with
    the label of the string. *)
Example none_overwritten :
  match BloomFilter.__init__ (PInt 1000) (PInt 3) with
  | inl e => inl e
  | inr bf0 =>
      match check_password_uniqueness [PNone; PStr (u "None")] bf0 with
      | inl e => inl e
      | inr (r, _) => inr (map_to_list r)
      end
  end = inr [(u "None", status_unique)].
Proof. vm_compute. reflexivity. Qed.

(** ** Registers of the counter *)

Lemma add_absorb h item :
  hll_wf h ->
  HyperLogLog.add item h = inr (tt, absorb h item)
  /\ hll_wf (absorb h item)
  /\ 1 <= rank (HyperLogLog.p h) item <= 64 - HyperLogLog.p h + 1
  /\ (bucket (HyperLogLog.p h) item < length (HyperLogLog.registers h))%nat.
Proof.
  intros Hwf.
  destruct (hll_add_wf h item Hwf) as (old & Hold & Hj & Hrho & Hadd).
  assert (Heq : HyperLogLog.add item h = inr (tt, absorb h item)).
  { rewrite Hadd. unfold absorb, bucket, rank. cbv zeta. rewrite Hold.
    reflexivity. }
  split; [exact Heq|].
  split; [eapply hll_add_keeps_wf; [exact Hwf | exact Heq]|].
  split; [exact Hrho|]. eapply lookup_lt_Some. exact Hold.
Qed.

Lemma absorb_lookup h item i old :
  HyperLogLog.registers h !! i = Some old ->
  HyperLogLog.registers (absorb h item) !! i
  = Some (if decide (i = bucket (HyperLogLog.p h) item)
          then Z.max old (rank (HyperLogLog.p h) item) else old).
Proof.
  intros Hold. unfold absorb. cbv zeta. simpl.
  destruct (decide (i = bucket (HyperLogLog.p h) item)) as [->|Hne].
  - rewrite list_lookup_insert_eq by (eapply lookup_lt_Some; exact Hold).
    rewrite Hold. reflexivity.
  - rewrite list_lookup_insert_ne by congruence. exact Hold.
Qed.

(** Each register after a stream: the largest of its old value and the
    ranks of the items of its bucket. *)
Lemma adds_registers items : forall h h',
  hll_wf h -> for_ items HyperLogLog.add h = inr (tt, h') ->
  HyperLogLog.p h' = HyperLogLog.p h
  /\ HyperLogLog.m h' = HyperLogLog.m h
  /\ HyperLogLog.alpha h' = HyperLogLog.alpha h
  /\ length (HyperLogLog.registers h') = length (HyperLogLog.registers h)
  /\ forall i old, HyperLogLog.registers h !! i = Some old ->
       exists v, HyperLogLog.registers h' !! i = Some v
         /\ old <= v
         /\ (forall x, x ∈ items -> bucket (HyperLogLog.p h) x = i ->
                       rank (HyperLogLog.p h) x <= v)
         /\ (v = old
             \/ exists x, x ∈ items /\ bucket (HyperLogLog.p h) x = i
                          /\ v = rank (HyperLogLog.p h) x).
Proof.
  induction items as [|item items IH]; intros h h' Hwf Hrun.
  - injection Hrun as <-. repeat (split; [reflexivity|]).
    intros i old Hold. exists old. split; [exact Hold|]. split; [lia|].
    split; [intros x Hx; inversion Hx | left; reflexivity].
  - destruct (add_absorb h item Hwf) as (Hadd & Hwf1 & _ & _).
    simpl in Hrun. monad_unfold. rewrite Hadd in Hrun.
    destruct (IH _ _ Hwf1 Hrun) as (Hp & Hm & Ha & Hlen & Hregs).
    simpl in Hp, Hm, Ha, Hlen. rewrite length_insert in Hlen.
    repeat (split; [assumption|]).
    intros i old Hold.
    destruct (Hregs i _ (absorb_lookup h item i old Hold))
      as (v & Hv & Hge & Hall & Hatt).
    change (HyperLogLog.p (absorb h item)) with (HyperLogLog.p h) in Hall, Hatt.
    exists v. split; [exact Hv|].
    destruct (decide (i = bucket (HyperLogLog.p h) item)) as [->|Hne].
    + split; [lia|]. split.
      * intros x Hx Hb. apply elem_of_cons in Hx as [->|Hx]; [lia|].
        exact (Hall x Hx Hb).
      * destruct Hatt as [->|(x & Hx & Hb & ->)].
        -- destruct (Z.max_spec old (rank (HyperLogLog.p h) item))
             as [[_ ->]|[_ ->]]; [right | left; reflexivity].
           exists item. split; [apply elem_of_cons; left; reflexivity|].
           split; reflexivity.
        -- right. exists x. split; [apply elem_of_cons; right; exact Hx|].
           split; [exact Hb | reflexivity].
    + split; [exact Hge|]. split.
      * intros x Hx Hb. apply elem_of_cons in Hx as [->|Hx]; [congruence|].
        exact (Hall x Hx Hb).
      * destruct Hatt as [->|(x & Hx & Hb & ->)]; [left; reflexivity|].
        right. exists x. split; [apply elem_of_cons; right; exact Hx|].
        split; [exact Hb | reflexivity].
Qed.


(** X13. Registers only grow and stay small: for [p] in [[4, 18]], after
    any stream of [add] calls on a new counter there are still [2^p]
    registers, each between 0 and [64 - p + 1]; and a further stream
    leaves each register at least as large as it was. *)
Theorem registers_bounded_and_monotone p (items more : list str) :
  4 <= p <= 18 ->
  exists h0 h h',
    HyperLogLog.__init__ (PInt p) = inr h0
    /\ for_ items HyperLogLog.add h0 = inr (tt, h)
    /\ for_ more HyperLogLog.add h = inr (tt, h')
    /\ Z.of_nat (length (HyperLogLog.registers h)) = 2 ^ p
    /\ (forall i v, HyperLogLog.registers h !! i = Some v ->
                    0 <= v <= 64 - p + 1)
    /\ (forall i v, HyperLogLog.registers h !! i = Some v ->
          exists v', HyperLogLog.registers h' !! i = Some v' /\ v <= v').
Proof.
  intros Hp.
  destruct (hll_init_wf p Hp) as (h0 & Hinit & Hwf0 & Hp0 & Hregs0 & Hm0 & _).
  destruct (hll_adds_wf items h0 Hwf0) as (h & Hrun & Hwf & Hph).
  destruct (hll_adds_wf more h Hwf) as (h' & Hrun' & _ & _).
  exists h0, h, h'. split; [exact Hinit|]. split; [exact Hrun|].
  split; [exact Hrun'|].
  destruct (adds_registers items h0 h Hwf0 Hrun) as (_ & _ & _ & Hlen & Hregs).
  destruct (adds_registers more h h' Hwf Hrun') as (_ & _ & _ & _ & Hregs').
  split.
  { rewrite Hlen, (wf_registers h0 Hwf0). exact Hm0. }
  split.
  - intros i v Hv.
    assert (Hi : (i < length (HyperLogLog.registers h0))%nat)
      by (rewrite <- Hlen; eapply lookup_lt_Some; exact Hv).
    destruct (lookup_lt_is_Some_2 _ _ Hi) as [old Hold].
    assert (old = 0).
    { rewrite Hregs0 in Hold. apply lookup_replicate in Hold as [-> _].
      reflexivity. }
    subst old.
    destruct (Hregs i 0 Hold) as (v1 & Hv1 & _ & _ & Hatt).
    assert (v1 = v) by congruence. subst v1.
    destruct Hatt as [->|(x & _ & _ & ->)]; [lia|].
    destruct (add_absorb h0 x Hwf0) as (_ & _ & Hrank & _). lia.
  - intros i v Hv. destruct (Hregs' i v Hv) as (v' & Hv' & Hge & _).
    exists v'. split; assumption.
Qed.

Lemma registers_bounded_and_monotone_witness :
  exists h0 h h',
    HyperLogLog.__init__ (PInt 4) = inr h0
    /\ for_ [u "10.0.0.1"; u "10.0.0.2"] HyperLogLog.add h0 = inr (tt, h)
    /\ for_ [u "10.0.0.3"] HyperLogLog.add h = inr (tt, h')
    /\ Z.of_nat (length (HyperLogLog.registers h)) = 2 ^ 4
    /\ (forall i v, HyperLogLog.registers h !! i = Some v ->
                    0 <= v <= 64 - 4 + 1)
    /\ (forall i v, HyperLogLog.registers h !! i = Some v ->
          exists v', HyperLogLog.registers h' !! i = Some v' /\ v <= v').
Proof.
  apply (registers_bounded_and_monotone 4 [u "10.0.0.1"; u "10.0.0.2"]
           [u "10.0.0.3"]). lia.
Defined.




(** ** Exact counting *)





Example exact_count_small :
  exact_unique_count_stream
    [u "10.0.0.1"; u "10.0.0.2"; u "10.0.0.1"; u "10.0.0.3"; u "10.0.0.2"]
  = 3.
Proof. vm_compute. reflexivity. Qed.

(** ** What the extractor returns *)

Section ExtractionSoundness.

Variable ip_address : str -> bool.

Lemma validate_ip_sound s r :
  _validate_ip ip_address s = Some r ->
  r = strip s /\ r <> [] /\ ip_address r = true.
Proof.
  unfold _validate_ip. destruct (strip s) as [|c t] eqn:E; [discriminate|].
  simpl. destruct (ip_address (c :: t)) eqn:Hv; [|discriminate].
  intros [= <-]. repeat split; [discriminate | exact Hv].
Qed.

Lemma from_forwarded_sound v ip :
  from_forwarded ip_address v = Some ip ->
  ip <> [] /\ strip ip = ip /\ ip_address ip = true
  /\ exists x, v = JStr x /\ ip = strip (split_first comma x).
Proof.
  destruct v as [| b | n | x]; try discriminate. simpl.
  destruct (negb (is_empty (strip x))); [|discriminate].
  destruct (_validate_ip ip_address (strip (split_first comma x)))
    as [r|] eqn:Hv; [|discriminate].
  destruct (truthy (Some r)); [|discriminate]. intros [= <-].
  apply validate_ip_sound in Hv as (Hr & Hne & Hvalid).
  rewrite strip_idemp in Hr. subst r.
  split; [exact Hne|]. split; [apply strip_idemp|]. split; [exact Hvalid|].
  exists x. split; reflexivity.
Qed.

Lemma from_remote_sound v ip :
  from_remote ip_address v = Some ip ->
  ip <> [] /\ strip ip = ip /\ ip_address ip = true
  /\ exists r, v = JStr r /\ ip = strip r.
Proof.
  destruct v as [| b | n | r]; try discriminate. simpl.
  destruct (negb (is_empty (strip r))); [|discriminate].
  destruct (_validate_ip ip_address r) as [s|] eqn:Hv; [|discriminate].
  destruct (truthy (Some s)); [|discriminate]. intros [= <-].
  apply validate_ip_sound in Hv as (Hr & Hne & Hvalid). subst s.
  split; [exact Hne|]. split; [apply strip_idemp|]. split; [exact Hvalid|].
  exists r. split; reflexivity.
Qed.

(** X16. Whatever the extractor returns is a clean, valid address from
    the record: if [_extract_client_ip] returns an address, it is not
    empty, has no whitespace at either end, is accepted by
    [ipaddress.ip_address], and is the trimmed first token of the
    record's forwarded-for string or its trimmed remote-address string;
    [_validate_ip] returns it unchanged. *)
Theorem extracted_address_is_valid (obj : gmap str jvalue) (ip : str) :
  _extract_client_ip ip_address obj = Some ip ->
  ip <> [] /\ strip ip = ip /\ ip_address ip = true
  /\ _validate_ip ip_address ip = Some ip
  /\ ((exists x, obj !! http_x_forwarded_for = Some (JStr x)
                 /\ ip = strip (split_first comma x))
      \/ (exists r, obj !! remote_addr = Some (JStr r) /\ ip = strip r)).
Proof.
  unfold _extract_client_ip. intros H.
  assert (Hsound : ip <> [] /\ strip ip = ip /\ ip_address ip = true
    /\ ((exists x, get_or_empty obj http_x_forwarded_for = JStr x
                   /\ ip = strip (split_first comma x))
        \/ (exists r, get_or_empty obj remote_addr = JStr r /\ ip = strip r))).
  { destruct (from_forwarded ip_address (get_or_empty obj http_x_forwarded_for))
      as [a|] eqn:Hf.
    - injection H as ->.
      apply from_forwarded_sound in Hf as (? & ? & ? & ?). auto.
    - destruct (from_remote ip_address (get_or_empty obj remote_addr))
        as [a|] eqn:Hr; [|discriminate].
      injection H as ->.
      apply from_remote_sound in Hr as (? & ? & ? & ?). auto. }
  destruct Hsound as (Hne & Hstrip & Hvalid & Hfrom).
  split; [exact Hne|]. split; [exact Hstrip|]. split; [exact Hvalid|].
  split.
  { unfold _validate_ip. rewrite Hstrip, Hvalid.
    destruct ip; [congruence | reflexivity]. }
  assert (Hget : forall key s, s <> [] ->
            get_or_empty obj key = JStr s -> obj !! key = Some (JStr s)).
  { intros key s Hs. unfold get_or_empty.
    destruct (obj !! key) as [v|]; [congruence|]. intros [= <-]. congruence. }
  destruct Hfrom as [(x & Hx & ->)|(r & Hr & ->)].
  - left. exists x. split; [|reflexivity].
    apply Hget; [|exact Hx]. intros ->. apply Hne. reflexivity.
  - right. exists r. split; [|reflexivity].
    apply Hget; [|exact Hr]. intros ->. apply Hne. reflexivity.
Qed.

Lemma extract_not_empty obj ip :
  _extract_client_ip ip_address obj = Some ip -> ip <> [].
Proof.
  unfold _extract_client_ip.
  destruct (from_forwarded ip_address (get_or_empty obj http_x_forwarded_for))
    as [a|] eqn:Hf.
  - intros [= <-]. apply from_forwarded_sound in Hf. tauto.
  - destruct (from_remote ip_address (get_or_empty obj remote_addr))
      as [a|] eqn:Hr; [|discriminate].
    intros [= <-]. apply from_remote_sound in Hr. tauto.
Qed.

Lemma extract_sound obj ip :
  _extract_client_ip ip_address obj = Some ip ->
  ip <> [] /\ strip ip = ip /\ ip_address ip = true.
Proof.
  unfold _extract_client_ip.
  destruct (from_forwarded ip_address (get_or_empty obj http_x_forwarded_for))
    as [a|] eqn:Hf.
  - intros [= <-]. apply from_forwarded_sound in Hf. tauto.
  - destruct (from_remote ip_address (get_or_empty obj remote_addr))
      as [a|] eqn:Hr; [|discriminate].
    intros [= <-]. apply from_remote_sound in Hr. tauto.
Qed.

Lemma iter_is_omap records :
  iter_ips_from_log ip_address records
  = omap (_extract_client_ip ip_address) records.
Proof.
  induction records as [|obj records IH]; [reflexivity|]. simpl.
  destruct (_extract_client_ip ip_address obj) as [ip|] eqn:E; [|exact IH].
  apply extract_not_empty in E.
  destruct ip; [congruence|]. simpl. rewrite IH. reflexivity.
Qed.

Lemma omap_shorter {A B} (f : A -> option B) (l : list A) :
  (length (omap f l) <= length l)%nat.
Proof.
  induction l as [|x l IH]; [simpl; lia|].
  change (omap f (x :: l))
    with (match f x with Some y => y :: omap f l | None => omap f l end).
  destruct (f x); cbn [length]; lia.
Qed.

Lemma records_read_shorter lines :
  (length (records_read lines) <= length lines)%nat.
Proof.
  induction lines as [|[| |obj|] lines IH]; cbn [records_read length]; lia.
Qed.

Lemma records_read_objects records :
  records_read (LineObject <$> records) = records.
Proof.
  induction records as [|obj records IH]; [reflexivity|].
  cbn [fmap list_fmap records_read]. f_equal. exact IH.
Qed.

Lemma iter_lines_yielded lines :
  (iter_ips_from_lines ip_address lines).1
  = omap (_extract_client_ip ip_address) (records_read lines).
Proof.
  induction lines as [|[| |obj|] lines IH];
    cbn [iter_ips_from_lines records_read]; try exact IH; try reflexivity.
  change (omap (_extract_client_ip ip_address) (obj :: records_read lines))
    with (match _extract_client_ip ip_address obj with
          | Some y => y :: omap (_extract_client_ip ip_address)
                             (records_read lines)
          | None => omap (_extract_client_ip ip_address) (records_read lines)
          end).
  destruct (_extract_client_ip ip_address obj) as [ip|] eqn:E; [|exact IH].
  apply extract_not_empty in E.
  destruct ip; [congruence|]. simpl. rewrite IH. reflexivity.
Qed.

Lemma iter_lines_end lines :
  ((iter_ips_from_lines ip_address lines).2 = Some AttributeError
   /\ LineOther ∈ lines)
  \/ ((iter_ips_from_lines ip_address lines).2 = None
      /\ LineOther ∉ lines).
Proof.
  induction lines as [|l lines IH].
  - right. split; [reflexivity | apply not_elem_of_nil].
  - assert (Hskip :
      l <> LineOther ->
      (iter_ips_from_lines ip_address (l :: lines)).2
      = (iter_ips_from_lines ip_address lines).2).
    { intros Hl. destruct l as [| |obj|]; try reflexivity; [|congruence].
      cbn [iter_ips_from_lines].
      destruct (_extract_client_ip ip_address obj) as [ip|]; [|reflexivity].
      destruct (truthy (Some ip)); reflexivity. }
    destruct l as [| |obj|];
      try (rewrite Hskip by discriminate;
           destruct IH as [[He Hin]|[He Hin]];
           [left; split; [exact He | apply elem_of_cons; right; exact Hin]
           |right; split; [exact He|];
            intros H; apply elem_of_cons in H as [H|H];
            [discriminate | exact (Hin H)]]).
    left. split; [reflexivity | apply elem_of_cons; left; reflexivity].
Qed.

(** X17. The stream of addresses: over the lines of the file,
    [iter_ips_from_log] skips a blank line, a line that is not JSON and
    an object from which nothing can be extracted, and goes on; it
    yields, in order, exactly the addresses [_extract_client_ip] returns
    for the objects that precede the first line decoding to a value that
    is not an object; at such a line the stream ends with
    [AttributeError], and without one it ends normally; it never yields
    more addresses than there are lines, nor an address that is empty,
    untrimmed or invalid. *)
Theorem stream_of_addresses (lines : list log_line) :
  (iter_ips_from_lines ip_address lines).1
  = omap (_extract_client_ip ip_address) (records_read lines)
  /\ ((iter_ips_from_lines ip_address lines).2 = Some AttributeError
      <-> LineOther ∈ lines)
  /\ ((iter_ips_from_lines ip_address lines).2 = None
      <-> LineOther ∉ lines)
  /\ (forall before after,
        iter_ips_from_lines ip_address (before ++ LineOther :: after)
        = (omap (_extract_client_ip ip_address) (records_read before),
           Some AttributeError))
  /\ (forall records,
        iter_ips_from_lines ip_address (LineObject <$> records)
        = (iter_ips_from_log ip_address records, None)
        /\ iter_ips_from_log ip_address records
           = omap (_extract_client_ip ip_address) records)
  /\ (length (iter_ips_from_lines ip_address lines).1 <= length lines)%nat
  /\ (forall ip, ip ∈ (iter_ips_from_lines ip_address lines).1 <->
        exists obj, obj ∈ records_read lines
                    /\ _extract_client_ip ip_address obj = Some ip)
  /\ (forall ip, ip ∈ (iter_ips_from_lines ip_address lines).1 ->
        ip <> [] /\ strip ip = ip /\ ip_address ip = true).
Proof.
  split; [apply iter_lines_yielded|].
  split.
  { destruct (iter_lines_end lines) as [[He Hin]|[He Hin]]; rewrite He;
      split; intros H; try assumption; try reflexivity;
      try discriminate; contradiction. }
  split.
  { destruct (iter_lines_end lines) as [[He Hin]|[He Hin]]; rewrite He;
      split; intros H; try assumption; try reflexivity;
      try discriminate; contradiction. }
  split.
  { intros before after.
    assert (Hread : records_read (before ++ LineOther :: after)
                    = records_read before).
    { induction before as [|[| |obj|] before IH];
        cbn [app records_read]; try exact IH; try reflexivity.
      f_equal. exact IH. }
    destruct (iter_ips_from_lines ip_address (before ++ LineOther :: after))
      as [ips e] eqn:Hrun.
    pose proof (iter_lines_yielded (before ++ LineOther :: after)) as Hy.
    rewrite Hrun, Hread in Hy. simpl in Hy. subst ips.
    destruct (iter_lines_end (before ++ LineOther :: after))
      as [[He _]|[_ Hin]].
    - rewrite Hrun in He. simpl in He. subst e. reflexivity.
    - destruct Hin. apply elem_of_app. right.
      apply elem_of_cons. left. reflexivity. }
  split.
  { intros records. split; [|apply iter_is_omap].
    destruct (iter_ips_from_lines ip_address (LineObject <$> records))
      as [ips e] eqn:Hrun.
    pose proof (iter_lines_yielded (LineObject <$> records)) as Hy.
    rewrite Hrun, records_read_objects in Hy. simpl in Hy. subst ips.
    rewrite iter_is_omap.
    destruct (iter_lines_end (LineObject <$> records)) as [[_ Hin]|[He _]].
    - apply list_elem_of_fmap in Hin as (obj & Hobj & _). discriminate.
    - rewrite Hrun in He. simpl in He. subst e. reflexivity. }
  rewrite iter_lines_yielded.
  split.
  { etransitivity; [apply omap_shorter | apply records_read_shorter]. }
  split.
  - intros ip. apply list_elem_of_omap.
  - intros ip Hin. apply list_elem_of_omap in Hin as (obj & _ & Hobj).
    exact (extract_sound obj ip Hobj).
Qed.

End ExtractionSoundness.

(** Five lines: a blank one, an object with a remote address, one that
    is not JSON, one that decodes to a list, and an object that is never
    reached. *)
Example stream_example :
  iter_ips_from_lines dotted_quad
    [LineBlank;
     LineObject {[ remote_addr := JStr (u " 198.51.100.7 ") ]};
     LineMalformed;
     LineOther;
     LineObject {[ remote_addr := JStr (u "203.0.113.5") ]}]
  = ([u "198.51.100.7"], Some AttributeError).
Proof. vm_compute. reflexivity. Qed.

Lemma extracted_address_is_valid_witness :
  u "198.51.100.7" <> []
  /\ strip (u "198.51.100.7") = u "198.51.100.7"
  /\ dotted_quad (u "198.51.100.7") = true
  /\ _validate_ip dotted_quad (u "198.51.100.7") = Some (u "198.51.100.7")
  /\ ((exists x,
         ({[ http_x_forwarded_for := JStr (u "not-an-ip");
             remote_addr := JStr (u " 198.51.100.7 ") ]}
            : gmap str jvalue) !! http_x_forwarded_for = Some (JStr x)
         /\ u "198.51.100.7" = strip (split_first comma x))
      \/ (exists r,
            ({[ http_x_forwarded_for := JStr (u "not-an-ip");
                remote_addr := JStr (u " 198.51.100.7 ") ]}
               : gmap str jvalue) !! remote_addr = Some (JStr r)
            /\ u "198.51.100.7" = strip r)).
Proof.
  apply (extracted_address_is_valid dotted_quad
           {[ http_x_forwarded_for := JStr (u "not-an-ip");
              remote_addr := JStr (u " 198.51.100.7 ") ]}
           (u "198.51.100.7")).
  vm_compute. reflexivity.
Defined.

(** ** Leading zeros and the constructors *)

(** X15. [_clz64] on a 64-bit value is the number of its leading zero
    bits, between 0 and 64 (64 for zero). *)
Theorem clz64_counts_leading_zeros (x : Z) :
  0 <= x < 2 ^ 64 ->
  HyperLogLog._clz64 x = leading_zeros 64 x
  /\ 0 <= HyperLogLog._clz64 x <= 64
  /\ (HyperLogLog._clz64 x = 64 <-> x = 0).
Proof.
  intros Hx. unfold HyperLogLog._clz64.
  rewrite (leading_zeros_spec 64 x) by exact Hx.
  change (Z.of_nat 64) with 64. split; [reflexivity|].
  destruct (Z.eq_dec x 0) as [->|Hne].
  - unfold bit_length. simpl. split; [lia|]. split; reflexivity.
  - rewrite bit_length_pos by lia.
    assert (0 <= Z.log2 x < 64).
    { split; [apply Z.log2_nonneg|]. apply Z.log2_lt_pow2; lia. }
    split; [lia|]. split; [lia | contradiction].
Qed.

Lemma clz64_counts_leading_zeros_witness :
  HyperLogLog._clz64 1024 = leading_zeros 64 1024
  /\ 0 <= HyperLogLog._clz64 1024 <= 64
  /\ (HyperLogLog._clz64 1024 = 64 <-> 1024 = 0).
Proof.
  apply (clz64_counts_leading_zeros 1024). lia.
Defined.

(** X1. The filter's constructor validates its arguments: it returns a
    filter exactly when both arguments are positive integers, and then
    one with those parameters and [(size + 7) // 8] zero bytes; in every
    other case it raises [ValueError], and nothing else. *)
Theorem bloom_init_validates (size num_hashes : pyval) :
  (exists sz k,
     size = PInt sz /\ num_hashes = PInt k /\ 0 < sz /\ 0 < k
     /\ BloomFilter.__init__ size num_hashes
        = inr (BloomFilter.mk sz k (replicate (Z.to_nat ((sz + 7) / 8)) 0)))
  \/ (BloomFilter.__init__ size num_hashes = inl ValueError
      /\ ~ exists sz k,
            size = PInt sz /\ num_hashes = PInt k /\ 0 < sz /\ 0 < k).
Proof.
  destruct size as [|s|sz|s];
    try (right; split; [reflexivity | intros (? & ? & ? & _); discriminate]).
  unfold BloomFilter.__init__.
  destruct (Z.leb_spec sz 0) as [Hsz|Hsz].
  { right. split; [reflexivity|]. intros (a & b & [= <-] & _ & Ha & _). lia. }
  destruct num_hashes as [|s|k|s];
    try (right; split; [reflexivity | intros (? & ? & _ & ? & _); discriminate]).
  destruct (Z.leb_spec k 0) as [Hk|Hk].
  { right. split; [reflexivity|]. intros (a & b & _ & [= <-] & _ & Hb). lia. }
  left. exists sz, k. repeat (split; [reflexivity || lia|]).
  unfold bytearray.
  assert (0 <= (sz + 7) / 8) by (apply Z.div_pos; lia).
  destruct (Z.ltb_spec ((sz + 7) / 8) 0); [lia | reflexivity].
Qed.

(** X12. The counter's constructor validates its precision: it returns
    a counter exactly for an integer [p] in [[4, 18]], with [2^p]
    registers at zero; otherwise it raises [ValueError], and then
    [hll_unique_count_stream] raises it whatever the stream. *)
Theorem hll_init_validates (libm_log : float -> float) (p : pyval)
    (ips : list str) :
  (exists n h,
     p = PInt n /\ 4 <= n <= 18
     /\ HyperLogLog.__init__ p = inr h
     /\ HyperLogLog.p h = n /\ HyperLogLog.m h = 2 ^ n
     /\ HyperLogLog.registers h = replicate (Z.to_nat (2 ^ n)) 0)
  \/ (HyperLogLog.__init__ p = inl ValueError
      /\ hll_unique_count_stream libm_log ips p = inl ValueError
      /\ ~ exists n, p = PInt n /\ 4 <= n <= 18).
Proof.
  destruct p as [|s|n|s];
    try (right; split; [reflexivity|]; split; [reflexivity|];
         intros (? & ? & _); discriminate).
  destruct (Z.lt_ge_cases n 4) as [Hlo|Hlo];
    [|destruct (Z.lt_ge_cases 18 n) as [Hhi|Hhi]].
  - right. assert (Hinit : HyperLogLog.__init__ (PInt n) = inl ValueError).
    { unfold HyperLogLog.__init__. destruct (Z.ltb_spec n 4); [reflexivity|lia]. }
    split; [exact Hinit|]. split.
    + unfold hll_unique_count_stream. rewrite Hinit. reflexivity.
    + intros (a & [= <-] & Ha). lia.
  - right. assert (Hinit : HyperLogLog.__init__ (PInt n) = inl ValueError).
    { unfold HyperLogLog.__init__.
      destruct (Z.ltb_spec n 4); [reflexivity|].
      destruct (Z.gtb_spec n 18); [reflexivity | lia]. }
    split; [exact Hinit|]. split.
    + unfold hll_unique_count_stream. rewrite Hinit. reflexivity.
    + intros (a & [= <-] & Ha). lia.
  - left. destruct (hll_init_wf n ltac:(lia)) as (h & Hinit & _ & Hp & Hregs & Hm & _).
    exists n, h. repeat (split; [assumption || reflexivity || lia|]). exact Hregs.
Qed.

(** ** Items and their strings *)

(** X19. The filter sees an item only through its string: on a
    well-formed filter, two items with the same normalized string (an
    [int] and its decimal numeral, say) are added with the same effect,
    and after adding one of them [contains] is [True] for the other. *)
Theorem same_string_same_item bf p q :
  bloom_wf bf -> ~ blank p ->
  BloomFilter._normalize q = BloomFilter._normalize p ->
  exists bf',
    BloomFilter.add p bf = inr (true, bf')
    /\ BloomFilter.add q bf = inr (true, bf')
    /\ BloomFilter.contains q bf' = inr (true, bf').
Proof.
  intros Hwf Hnb Heq.
  destruct (add_wf p bf Hwf Hnb) as (bf' & Hadd & Hwf' & _ & _ & Hall).
  assert (Hnbq : ~ blank q) by (unfold blank in *; rewrite Heq; exact Hnb).
  exists bf'. split; [exact Hadd|]. split.
  - unfold BloomFilter.add in *. rewrite Heq. exact Hadd.
  - destruct (contains_wf q bf' Hwf' Hnbq) as (r & Hr & Hiff).
    assert (r = true) as -> by (apply Hiff; rewrite Heq; exact Hall).
    exact Hr.
Qed.

Lemma same_string_same_item_witness :
  exists bf',
    BloomFilter.add (PInt 123) (BloomFilter.mk 16 2 [5; 128]) = inr (true, bf')
    /\ BloomFilter.add (PStr (u "123")) (BloomFilter.mk 16 2 [5; 128])
       = inr (true, bf')
    /\ BloomFilter.contains (PStr (u "123")) bf' = inr (true, bf').
Proof.
  apply (same_string_same_item (BloomFilter.mk 16 2 [5; 128])
           (PInt 123) (PStr (u "123"))).
  - constructor; simpl; [lia | lia | reflexivity | repeat constructor; lia].
  - unfold blank. vm_compute. discriminate.
  - vm_compute. reflexivity.
Defined.
